(** * move_files.py: relocating a list of files between two directories

    The script under verification is

<<
    def move_files(file_list, source_folder, destination_folder):
      for file_name in file_list:
        source_path = os.path.join(source_folder, file_name)
        destination_path = os.path.join(destination_folder, file_name)
        shutil.move(source_path, destination_path)

    if __name__ == "__main__":
      file_list = os.listdir(ENUMERATION_FOLDER)
      os.makedirs(destination_folder, exist_ok=True)
      move_files(file_list, source_folder, destination_folder)
>>

    Everything it does happens through [os.path.join], [os.listdir],
    [os.makedirs] and [shutil.move].  The development therefore has three
    layers:

    - [posixpath]: the string functions of CPython's posixpath module;
    - [fs] and [os]: a POSIX file system (a finite map from canonical
      paths to nodes), the system calls the script reaches and
      [os.makedirs];
    - [shutil]: [shutil.move] with its fall-back through [copy2] and
      [copytree], then [move_files] and the entry point themselves.

    The library layers follow CPython's posixpath, os and shutil modules
    and the POSIX system calls below them.  Scope of the file-system
    layer: one device, no symbolic links, no permission bits (every
    directory can be searched and written, every file read), no special
    files, no concurrent modification. *)

From Stdlib Require Import String Ascii.
From stdpp Require Import base option list strings gmap.

(* ===================================================================== *)
(** * posixpath *)
(* ===================================================================== *)

Module posixpath.

Definition is_sep (c : ascii) : bool := bool_decide (c = "/"%char).

Definition startswith_sep (s : string) : bool :=
  match s with
  | String c _ => is_sep c
  | EmptyString => false
  end.

Fixpoint endswith_sep (s : string) : bool :=
  match s with
  | EmptyString => false
  | String c EmptyString => is_sep c
  | String _ r => endswith_sep r
  end.

(** [os.path.join(a, b)] for two arguments: an absolute [b] replaces the
    path built so far; otherwise [b] is appended, with a separator unless
    the path is empty or already ends in one. *)
Definition join (a b : string) : string :=
  if startswith_sep b then b
  else if bool_decide (a = "") || endswith_sep a then a +:+ b
  else a +:+ "/" +:+ b.

(** [s.rstrip('/')]. *)
Fixpoint rstrip_sep (s : string) : string :=
  match s with
  | EmptyString => EmptyString
  | String c r =>
      match rstrip_sep r with
      | EmptyString => if is_sep c then EmptyString else String c EmptyString
      | r' => String c r'
      end
  end.

(** [(p[:i], p[i:])] for [i = p.rfind('/') + 1]. *)
Fixpoint cut_last_sep (p : string) : string * string :=
  match p with
  | EmptyString => (EmptyString, EmptyString)
  | String c r =>
      match cut_last_sep r with
      | (EmptyString, t) =>
          if is_sep c then (String c EmptyString, t) else (EmptyString, String c t)
      | (h, t) => (String c h, t)
      end
  end.

(** [os.path.split(p)]: the head loses its trailing separators unless it
    consists of separators only. *)
Definition split (p : string) : string * string :=
  let '(head, tail) := cut_last_sep p in
  (match rstrip_sep head with
   | EmptyString => head
   | stripped => stripped
   end, tail).

Definition basename (p : string) : string := snd (cut_last_sep p).

(** The components of a path, as [p.split('/')] lists them. *)
Fixpoint components (p : string) : list string :=
  match p with
  | EmptyString => [EmptyString]
  | String c r =>
      if is_sep c then EmptyString :: components r
      else match components r with
           | [] => [String c EmptyString]
           | h :: t => String c h :: t
           end
  end.

(** Trailing empty components (those of trailing separators) removed. *)
Fixpoint strip_trailing (cs : list string) : list string :=
  match cs with
  | [] => []
  | c :: cs' =>
      match strip_trailing cs' with
      | [] => if bool_decide (c = "") then [] else [c]
      | rest => c :: rest
      end
  end.

(** The fold of [os.path.normpath]: empty and dot components are dropped,
    dot-dot removes the component before it.  A leading double slash is
    treated like a single one. *)
Fixpoint normalize (cur : list string) (cs : list string) : list string :=
  match cs with
  | [] => cur
  | c :: cs' =>
      if bool_decide (c = "" ∨ c = ".") then normalize cur cs'
      else if bool_decide (c = "..") then normalize (removelast cur) cs'
      else normalize (cur ++ [c]) cs'
  end.

End posixpath.

(* ===================================================================== *)
(** * Exceptions and the monad of the script *)
(* ===================================================================== *)

(** The error numbers the modelled system calls report. *)
Inductive errno :=
  ENOENT | ENOTDIR | EISDIR | EEXIST | ENOTEMPTY | EINVAL | EBUSY | EPERM.

(** The messages of [shutil.Error]. *)
Inductive shutil_message :=
  | DestinationExists (real_dst : string)
  | MoveIntoItself (src dst : string)
  | CopyErrors.

(** Python exceptions.  [OSError ENOENT] is [FileNotFoundError],
    [OSError ENOTDIR] is [NotADirectoryError], [OSError EISDIR] is
    [IsADirectoryError], [OSError EEXIST] is [FileExistsError]; the
    remaining error numbers raise a plain [OSError].  [shutil.Error] and
    [shutil.SameFileError] are subclasses of [OSError] in Python, so
    [except OSError] catches them as well. *)
Inductive exn :=
  | OSError (e : errno)
  | ShutilError (m : shutil_message)
  | SameFileError
  | RecursionError.

Definition FileNotFoundError : exn := OSError ENOENT.
Definition NotADirectoryError : exn := OSError ENOTDIR.
Definition IsADirectoryError : exn := OSError EISDIR.
Definition FileExistsError : exn := OSError EEXIST.

Global Instance errno_eq_dec : EqDecision errno.
Proof. solve_decision. Defined.
Global Instance shutil_message_eq_dec : EqDecision shutil_message.
Proof. solve_decision. Defined.
Global Instance exn_eq_dec : EqDecision exn.
Proof. solve_decision. Defined.

(** A computation either raises or returns, and in both cases leaves a
    state behind: an exception does not roll anything back. *)
Definition M (St A : Type) : Type := St → (exn + A) * St.

Definition ret {St A} (a : A) : M St A := λ s, (inr a, s).
Definition raise {St A} (e : exn) : M St A := λ s, (inl e, s).
Definition bind {St A B} (m : M St A) (k : A → M St B) : M St B :=
  λ s, match m s with
       | (inr a, s') => k a s'
       | (inl e, s') => (inl e, s')
       end.

(** [try m except <handled>: h]. *)
Definition try_except {St A} (m : M St A) (handled : exn → bool)
    (h : exn → M St A) : M St A :=
  λ s, match m s with
       | (inl e, s') => if handled e then h e s' else (inl e, s')
       | r => r
       end.

Declare Scope py_scope.
Delimit Scope py_scope with py.
Notation "'let*' x ':=' m 'in' k" := (bind m (λ x, k))
  (at level 10, x name, m at level 100, k at level 200) : py_scope.
Notation "m '>>' k" := (bind m (λ _, k))
  (at level 80, right associativity) : py_scope.

(* ===================================================================== *)
(** * The file system *)
(* ===================================================================== *)

(** A node is a regular file with its contents or a directory.  The tree
    maps canonical paths (the component names from the root down; the
    root is the empty list) to nodes. *)
Inductive node :=
  | File (data : string)
  | Dir.

Global Instance node_eq_dec : EqDecision node.
Proof. solve_decision. Defined.

Record world := World {
  tree : gmap (list string) node;
  cwd : list string
}.

Module fs.
Import posixpath.

(** Path resolution.  Every component is looked up in a directory, so the
    path walked so far must name one; dot and dot-dot name directories
    themselves. The result names an entry that may or may not exist. *)
Fixpoint walk (t : gmap (list string) node) (cur : list string)
    (cs : list string) : errno + list string :=
  match cs with
  | [] => inr cur
  | c :: cs' =>
      match t !! cur with
      | None => inl ENOENT
      | Some (File _) => inl ENOTDIR
      | Some Dir =>
          if bool_decide (c = "" ∨ c = ".") then walk t cur cs'
          else if bool_decide (c = "..") then
            match t !! removelast cur with
            | Some Dir => walk t (removelast cur) cs'
            | _ => inl ENOENT
            end
          else walk t (cur ++ [c]) cs'
      end
  end.

Definition start (w : world) (p : string) : list string :=
  if startswith_sep p then [] else cwd w.

(** Resolution of a path that is to name an existing entry: a trailing
    separator requires a directory before it. *)
Definition resolve (w : world) (p : string) : errno + list string :=
  if bool_decide (p = "") then inl ENOENT
  else walk (tree w) (start w p) (components p).

(** Resolution of a path that may name an entry about to be created:
    trailing separators are ignored. *)
Definition resolve_new (w : world) (p : string) : errno + list string :=
  if bool_decide (p = "") then inl ENOENT
  else walk (tree w) (start w p) (strip_trailing (components p)).

(** The last component is a name (not dot, dot-dot or the root). *)
Definition final_is_name (p : string) : bool :=
  match last (strip_trailing (components p)) with
  | Some c => bool_decide (c ≠ "" ∧ c ≠ "." ∧ c ≠ "..")
  | None => false
  end.

Definition stat (w : world) (p : string) : errno + (list string * node) :=
  match resolve w p with
  | inl e => inl e
  | inr cp =>
      match tree w !! cp with
      | Some nd => inr (cp, nd)
      | None => inl ENOENT
      end
  end.

(** [os.path.exists], [os.path.isdir], [os.path.isfile],
    [os.path.samefile] (which raises when either path is missing). *)
Definition exists_ (w : world) (p : string) : bool :=
  match stat w p with inr _ => true | inl _ => false end.

Definition isdir (w : world) (p : string) : bool :=
  match stat w p with inr (_, Dir) => true | _ => false end.

Definition isfile (w : world) (p : string) : bool :=
  match stat w p with inr (_, File _) => true | _ => false end.

Definition samefile (w : world) (p q : string) : errno + bool :=
  match stat w p, stat w q with
  | inr (cp, _), inr (cq, _) => inr (bool_decide (cp = cq))
  | inl e, _ => inl e
  | _, inl e => inl e
  end.

(** [os.getcwd] and [os.path.abspath], on components. *)
Definition abspath (w : world) (p : string) : list string :=
  normalize (start w p) (components p).

(** Directory entries below [d]. *)
Definition has_children (t : gmap (list string) node) (d : list string) : bool :=
  bool_decide (Exists (λ k, k ≠ d ∧ d `prefix_of` k) (map_to_list t).*1).

Definition children (t : gmap (list string) node) (d : list string) : list string :=
  omap (λ k, if bool_decide (k ≠ [] ∧ removelast k = d) then last k else None)
       (map_to_list t).*1.

(** The subtree at [old] re-rooted at [new]. *)
Definition rebase (old new k : list string) : list string :=
  new ++ drop (length old) k.

Definition move_subtree (t : gmap (list string) node) (old new : list string)
    : gmap (list string) node :=
  kmap (rebase old new) (filter (λ kv, old `prefix_of` kv.1) t)
  ∪ filter (λ kv, ¬ old `prefix_of` kv.1) t.

Definition remove_subtree (t : gmap (list string) node) (d : list string)
    : gmap (list string) node :=
  filter (λ kv, ¬ d `prefix_of` kv.1) t.

Definition set_tree (w : world) (t : gmap (list string) node) : world :=
  World t (cwd w).

End fs.

(* ===================================================================== *)
(** * System calls and the os module *)
(* ===================================================================== *)

Module os.
Import posixpath fs.
Local Open Scope py_scope.

Definition fail {A} (e : errno) (w : world) : (exn + A) * world :=
  (inl (OSError e), w).

(** [except OSError]: every modelled exception but [RecursionError]. *)
Definition is_OSError (e : exn) : bool :=
  match e with RecursionError => false | _ => true end.

(** [rename(2)].  Renaming an entry onto itself does nothing; a regular
    file replaces a regular file; a directory replaces an empty directory
    and cannot move below itself. *)
Definition rename (old new : string) : M world unit := λ w,
  match stat w old with
  | inl e => fail e w
  | inr (sp, nd) =>
      match resolve_new w new with
      | inl e => fail e w
      | inr dp =>
          if negb (final_is_name old && final_is_name new) then fail EINVAL w
          else if bool_decide (sp = dp) then (inr (), w)
          else
            match nd with
            | File data =>
                if endswith_sep new then fail ENOTDIR w
                else
                  match tree w !! dp with
                  | Some Dir => fail EISDIR w
                  | _ => (inr (), set_tree w (<[dp := File data]> (delete sp (tree w))))
                  end
            | Dir =>
                let moved :=
                  World (move_subtree (tree w) sp dp)
                        (if bool_decide (sp `prefix_of` cwd w)
                         then rebase sp dp (cwd w) else cwd w) in
                if bool_decide (sp `prefix_of` dp) then fail EINVAL w
                else
                  match tree w !! dp with
                  | Some (File _) => fail ENOTDIR w
                  | Some Dir =>
                      if has_children (tree w) dp then fail ENOTEMPTY w
                      else (inr (), moved)
                  | None => (inr (), moved)
                  end
            end
      end
  end.

(** [unlink(2)]. *)
Definition unlink (p : string) : M world unit := λ w,
  match stat w p with
  | inl e => fail e w
  | inr (_, Dir) => fail EPERM w
  | inr (cp, File _) => (inr (), set_tree w (delete cp (tree w)))
  end.

(** [mkdir(2)]. *)
Definition mkdir (p : string) : M world unit := λ w,
  match resolve_new w p with
  | inl e => fail e w
  | inr cp =>
      match tree w !! cp with
      | Some _ => fail EEXIST w
      | None => (inr (), set_tree w (<[cp := Dir]> (tree w)))
      end
  end.

(** [os.listdir]: the names in a directory, in the order the finite map
    enumerates them (Python leaves the order unspecified). *)
Definition listdir (p : string) : M world (list string) := λ w,
  match stat w p with
  | inl e => fail e w
  | inr (_, File _) => fail ENOTDIR w
  | inr (cp, Dir) => (inr (children (tree w) cp), w)
  end.

(** [os.scandir]: the names with the kind each entry has when listed. *)
Definition scandir (p : string) : M world (list (string * bool)) := λ w,
  match stat w p with
  | inl e => fail e w
  | inr (_, File _) => fail ENOTDIR w
  | inr (cp, Dir) =>
      (inr ((λ c, (c, bool_decide (tree w !! (cp ++ [c]) = Some Dir)))
              <$> children (tree w) cp), w)
  end.

(** [open(p, 'rb').read()]. *)
Definition read_file (p : string) : M world string := λ w,
  match stat w p with
  | inl e => fail e w
  | inr (_, Dir) => fail EISDIR w
  | inr (_, File data) => (inr data, w)
  end.

(** [open(p, 'wb').write(data)]: the file is created or truncated. *)
Definition write_file (p : string) (data : string) : M world unit := λ w,
  if endswith_sep p then fail EISDIR w
  else
    match resolve_new w p with
    | inl e => fail e w
    | inr cp =>
        match tree w !! cp with
        | Some Dir => fail EISDIR w
        | _ => (inr (), set_tree w (<[cp := File data]> (tree w)))
        end
    end.

(** [os.makedirs(name, exist_ok=...)]:

<<
    head, tail = path.split(name)
    if not tail:
        head, tail = path.split(head)
    if head and tail and not path.exists(head):
        try:
            makedirs(head, exist_ok=exist_ok)
        except FileExistsError:
            pass
        if tail == curdir:
            return
    try:
        mkdir(name, mode)
    except OSError:
        if not exist_ok or not path.isdir(name):
            raise
>>

    The recursion is on a strictly shorter string; [fuel] bounds it. *)
Definition mkdir_or_exists (name : string) (exist_ok : bool) : M world unit :=
  try_except (mkdir name) is_OSError
    (λ e w, if negb exist_ok || negb (isdir w name) then (inl e, w)
            else (inr (), w)).

Fixpoint makedirs_rec (fuel : nat) (name : string) (exist_ok : bool)
    : M world unit :=
  match fuel with
  | O => raise RecursionError
  | S fuel' =>
      let '(head, tail) := split name in
      let '(head, tail) :=
        if bool_decide (tail = "") then split head else (head, tail) in
      λ w,
        if bool_decide (head ≠ "") && bool_decide (tail ≠ "")
           && negb (exists_ w head)
        then
          (try_except (makedirs_rec fuel' head exist_ok)
                      (λ e, bool_decide (e = FileExistsError))
                      (λ _, ret ()) >>
           if bool_decide (tail = ".") then ret ()
           else mkdir_or_exists name exist_ok) w
        else mkdir_or_exists name exist_ok w
  end.

Definition makedirs (name : string) (exist_ok : bool) : M world unit :=
  makedirs_rec (S (String.length name)) name exist_ok.

End os.

(* ===================================================================== *)
(** * shutil *)
(* ===================================================================== *)

Module shutil.
Import posixpath fs.
Local Open Scope py_scope.

Definition _basename (path : string) : string := basename (rstrip_sep path).

Definition _samefile (w : world) (src dst : string) : bool :=
  match samefile w src dst with
  | inr b => b
  | inl _ => false
  end.

Definition _destinsrc (w : world) (src dst : string) : bool :=
  bool_decide (abspath w src `prefix_of` abspath w dst).

(** [copyfile]: the source is opened first, then the destination.  An
    [IsADirectoryError] for a destination that does not exist is turned
    into [FileNotFoundError]. *)
Definition copyfile (src dst : string) : M world unit := λ w,
  if _samefile w src dst then (inl SameFileError, w)
  else
    (let* data := os.read_file src in
     try_except (os.write_file dst data)
       (λ e, bool_decide (e = IsADirectoryError))
       (λ e w', if exists_ w' dst then (inl e, w')
                else (inl FileNotFoundError, w'))) w.

(** [copy2]; the metadata that [copystat] copies is not modelled. *)
Definition copy2 (src dst : string) : M world unit := λ w,
  copyfile src (if isdir w dst then join dst (basename src) else dst) w.

(** The loop of [_copytree]: an [Error] or [OSError] of one entry is
    recorded and the loop goes on. *)
Fixpoint copy_entries {A} (body : A → M world unit) (xs : list A)
    : M world bool :=
  match xs with
  | [] => ret false
  | x :: xs' =>
      λ w, match body x w with
           | (inr _, w') => copy_entries body xs' w'
           | (inl e, w') =>
               if os.is_OSError e
               then (let* _ := copy_entries body xs' in ret true) w'
               else (inl e, w')
           end
  end.

(** [copytree(src, dst, symlinks=True)]: the entries are listed before
    the destination is created with [os.makedirs(dst)]. *)
Fixpoint copytree (fuel : nat) (src dst : string) : M world unit :=
  match fuel with
  | O => raise RecursionError
  | S fuel' =>
      let* entries := os.scandir src in
      os.makedirs dst false >>
      let* errors :=
        copy_entries
          (λ entry : string * bool,
             let srcname := join src entry.1 in
             let dstname := join dst entry.1 in
             if entry.2 then copytree fuel' srcname dstname
             else copy2 srcname dstname)
          entries in
      if (errors : bool) then raise (ShutilError CopyErrors) else ret ()
  end.

(** The depth at which the interpreter gives up on nested calls. *)
Definition recursion_limit : nat := 1000.

(** [rmtree]: without permissions every removal below an existing
    directory succeeds, so the whole subtree disappears. *)
Definition rmtree (p : string) : M world unit := λ w,
  match stat w p with
  | inl e => os.fail e w
  | inr (_, File _) => os.fail ENOTDIR w
  | inr (cp, Dir) => (inr (), set_tree w (remove_subtree (tree w) cp))
  end.

(** [shutil.move(src, dst)]:

<<
    real_dst = dst
    if os.path.isdir(dst):
        if _samefile(src, dst) and not os.path.islink(src):
            os.rename(src, dst)
            return
        real_dst = os.path.join(dst, _basename(src))
        if os.path.exists(real_dst):
            raise Error("Destination path '%s' already exists" % real_dst)
    try:
        os.rename(src, real_dst)
    except OSError:
        if os.path.islink(src):
            ...
        elif os.path.isdir(src):
            if _destinsrc(src, dst):
                raise Error("Cannot move a directory '%s' into itself '%s'.")
            copytree(src, real_dst, copy_function=copy_function, symlinks=True)
            rmtree(src)
        else:
            copy_function(src, real_dst)
            os.unlink(src)
    return real_dst
>> *)
Definition move_to (src dst real_dst : string) : M world (option string) :=
  try_except (os.rename src real_dst) os.is_OSError
    (λ _ w,
       if isdir w src then
         if _destinsrc w src dst
         then (inl (ShutilError (MoveIntoItself src dst)), w)
         else (copytree recursion_limit src real_dst >> rmtree src) w
       else (copy2 src real_dst >> os.unlink src) w) >>
  ret (Some real_dst).

Definition move (src dst : string) : M world (option string) := λ w,
  if isdir w dst then
    if _samefile w src dst then (os.rename src dst >> ret None) w
    else
      let real_dst := join dst (_basename src) in
      if exists_ w real_dst
      then (inl (ShutilError (DestinationExists real_dst)), w)
      else move_to src dst real_dst w
  else move_to src dst dst w.

End shutil.

(* ===================================================================== *)
(** * The script *)
(* ===================================================================== *)

Section move_files.
Local Open Scope py_scope.

(** The loop of [move_files], over any state and any move primitive. *)
Context {St R : Type}.
Variable shutil_move : string → string → M St R.

Fixpoint move_files_with (file_list : list string)
    (source_folder destination_folder : string) : M St unit :=
  match file_list with
  | [] => ret ()
  | file_name :: rest =>
      let source_path := posixpath.join source_folder file_name in
      let destination_path := posixpath.join destination_folder file_name in
      shutil_move source_path destination_path >>
      move_files_with rest source_folder destination_folder
  end.

End move_files.

Definition move_files : list string → string → string → M world unit :=
  move_files_with shutil.move.

Section script.
Local Open Scope py_scope.

(** The entry point, with its three hard-coded folders as parameters. *)
Definition script (enumeration_folder source_folder destination_folder : string)
    : M world unit :=
  let* file_list := os.listdir enumeration_folder in
  os.makedirs destination_folder true >>
  move_files file_list source_folder destination_folder.

End script.

Definition enumeration_folder : string :=
  "/Users/blakeli/code/protobuf-poc-split/protobuf-api/src/main/java/com/google/api/".
Definition source_folder : string :=
  "/Users/blakeli/code/protobuf-poc-split-keep-package/src/main/java/com/google/protobuf/".
Definition destination_folder : string :=
  "/Users/blakeli/code/protobuf-poc-split-keep-package/protobuf-api/src/main/java/com/google/protobuf/".

Definition main : M world unit :=
  script enumeration_folder source_folder destination_folder.

(* ===================================================================== *)
(** * Vocabulary of the statements *)
(* ===================================================================== *)

(** A plain file name: what [os.listdir] returns. *)
Fixpoint has_sep (s : string) : bool :=
  match s with
  | EmptyString => false
  | String c r => posixpath.is_sep c || has_sep r
  end.

Definition plain (n : string) : Prop :=
  has_sep n = false ∧ n ≠ "" ∧ n ≠ "." ∧ n ≠ "..".

Global Instance plain_dec n : Decision (plain n).
Proof. unfold plain. apply _. Defined.

(** Two worlds with the same directories: the same working directory and
    the same set of paths that name a directory. *)
Definition same_dirs (w w' : world) : Prop :=
  cwd w = cwd w' ∧ ∀ p, tree w !! p = Some Dir ↔ tree w' !! p = Some Dir.

(** [w'] is [w] with directories added and nothing else changed. *)
Definition grows (w w' : world) : Prop :=
  cwd w = cwd w' ∧
  ∀ p, tree w' !! p = tree w !! p ∨ (tree w !! p = None ∧ tree w' !! p = Some Dir).

(** Every directory of [w] is a directory of [w']. *)
Definition dirs_le (w w' : world) : Prop :=
  cwd w = cwd w' ∧ ∀ p, tree w !! p = Some Dir → tree w' !! p = Some Dir.

(** Every entry on which [w] and [w'] differ satisfies [P]. *)
Definition only_changes (w w' : world) (P : list string → Prop) : Prop :=
  ∀ q, tree w' !! q ≠ tree w !! q → P q.

(** The calls of [shutil.move] a run makes, in the order it makes them:
    the primitive is wrapped so that every call is appended to a log. *)
Definition traced {R} (mv : string → string → M world R)
    : string → string → M (world * list (string * string)) R :=
  λ src dst s,
    let '(r, w') := mv src dst s.1 in (r, (w', s.2 ++ [(src, dst)])).

Definition move_files_traced
    : list string → string → string → M (world * list (string * string)) unit :=
  move_files_with (traced shutil.move).

(** The call [move_files] makes for one file name. *)
Definition call_of (source_folder destination_folder file_name : string)
    : string * string :=
  (posixpath.join source_folder file_name,
   posixpath.join destination_folder file_name).

(** What [shutil.move] raises for a source that does not exist: the
    error of looking the source up, unless the destination is a directory
    that already holds an entry of the source's base name. *)
Definition missing_source_error (w : world) (src dst : string) : exn :=
  let real_dst := posixpath.join dst (shutil._basename src) in
  if fs.isdir w dst && fs.exists_ w real_dst
  then ShutilError (DestinationExists real_dst)
  else match fs.stat w src with
       | inl e => OSError e
       | inr _ => FileNotFoundError
       end.

(** The last component [os.makedirs] splits off its argument. *)
Definition last_component (name : string) : string :=
  let '(head, tail) := posixpath.split name in
  if bool_decide (tail = "") then (posixpath.split head).2 else tail.

(** The entries on the way from the directory [B] through the names
    [cs]: [B] itself and what every further name leads to. *)
Definition on_the_way (B cs q : list string) : Prop :=
  ∃ k, k `prefix_of` cs ∧ q = B ++ k.

(** Every component of every path of the tree is a plain name, as the
    directory entries of a real file system are. *)
Definition wf_names (w : world) : Prop :=
  map_Forall (λ k _, Forall plain k) (tree w).

Global Instance wf_names_dec w : Decision (wf_names w).
Proof. unfold wf_names. apply _. Defined.

(** Worlds for the examples: a tree from a list of entries, the working
    directory at the root. *)
Definition world_of (entries : list (list string * node)) : world :=
  World (list_to_map entries) [].

(** [/e] is empty, [/s] holds the files [a] and [b], [/d] is empty. *)
Definition two_files : world :=
  world_of [([], Dir); (["e"], Dir); (["s"], Dir); (["d"], Dir);
            (["s"; "a"], File "A"); (["s"; "b"], File "B")].

(** Only [/s] with the files [a] and [b]. *)
Definition no_destination : world :=
  world_of [([], Dir); (["s"], Dir);
            (["s"; "a"], File "A"); (["s"; "b"], File "B")].

(** [/s] is empty; [/d] holds a directory [a] that holds a file [a]. *)
Definition occupied_destination : world :=
  world_of [([], Dir); (["s"], Dir); (["d"], Dir);
            (["d"; "a"], Dir); (["d"; "a"; "a"], File "X")].

(** [/s] holds the file [a]; [/d] holds an empty directory [a]. *)
Definition directory_in_destination : world :=
  world_of [([], Dir); (["s"], Dir); (["d"], Dir);
            (["s"; "a"], File "A"); (["d"; "a"], Dir)].

(** [/e] and [/s] are empty; [/d] is a regular file. *)
Definition file_at_destination : world :=
  world_of [([], Dir); (["e"], Dir); (["s"], Dir); (["d"], File "x")].

(** [/e] lists [a] and [zz]; [/s] holds only the file [a]. *)
Definition listed_folder : world :=
  world_of [([], Dir); (["e"], Dir); (["s"], Dir);
            (["e"; "a"], File ""); (["e"; "zz"], File "");
            (["s"; "a"], File "A")].

(** [/e] lists [a] and [b]; [/s] holds the files [a], [b] and [c]. *)
Definition listed_present : world :=
  world_of [([], Dir); (["e"], Dir); (["s"], Dir);
            (["e"; "a"], File ""); (["e"; "b"], File "");
            (["s"; "a"], File "A"); (["s"; "b"], File "B");
            (["s"; "c"], File "C")].


(** [/s] holds a directory [sub] with a file [f]. *)
Definition directory_entry : world :=
  world_of [([], Dir); (["s"], Dir);
            (["s"; "sub"], Dir); (["s"; "sub"; "f"], File "F")].


(* ===================================================================== *)
(** * The path functions on examples *)
(* ===================================================================== *)

Example join_relative_path : posixpath.join "/s" "a.txt" = "/s/a.txt".
Proof. reflexivity. Qed.
Example join_trailing_sep : posixpath.join "/s/" "a.txt" = "/s/a.txt".
Proof. reflexivity. Qed.
Example join_absolute_path : posixpath.join "/s" "/etc/passwd" = "/etc/passwd".
Proof. reflexivity. Qed.
Example join_empty_folder : posixpath.join "" "a.txt" = "a.txt".
Proof. reflexivity. Qed.
Example split_plain : posixpath.split "/a/b/c" = ("/a/b", "c").
Proof. reflexivity. Qed.
Example split_trailing : posixpath.split "/a/b/" = ("/a/b", "").
Proof. reflexivity. Qed.
Example split_root : posixpath.split "/a" = ("/", "a").
Proof. reflexivity. Qed.
Example split_slashes : posixpath.split "//" = ("//", "").
Proof. reflexivity. Qed.
Example components_ex : posixpath.components "/a//b/" = [""; "a"; ""; "b"; ""].
Proof. reflexivity. Qed.

Example basename_of_joined : shutil._basename "/s/a.txt" = "a.txt".
Proof. reflexivity. Qed.
Example makedirs_creates_parents :
  fs.isdir (os.makedirs "/x/y/z/" true two_files).2 "/x/y" = true.
Proof. vm_compute. reflexivity. Qed.
Example destination_last_component :
  last_component destination_folder = "protobuf".
Proof. vm_compute. reflexivity. Qed.


(* ===================================================================== *)
(** * Paths, resolution and the primitives on regular files *)
(* ===================================================================== *)

Section strings.
Import posixpath.

Lemma app_nil_l (s : string) : "" +:+ s = s.
Proof. reflexivity. Qed.
Lemma app_cons c r (s : string) : String c r +:+ s = String c (r +:+ s).
Proof. reflexivity. Qed.

Lemma app_empty_r (s : string) : s +:+ "" = s.
Proof. induction s; rewrite ?app_cons; [done|congruence]. Qed.

Lemma components_nonempty p : components p ≠ [].
Proof. destruct p as [|c r]; simpl; [done|]. destruct (is_sep c); [done|]. by destruct (components r). Qed.

Lemma components_app_sep x y :
  components (x +:+ String "/" y) = components x ++ components y.
Proof.
  induction x as [|c r IH]; [done|]. rewrite app_cons. simpl.
  rewrite IH. destruct (is_sep c); [done|].
  pose proof (components_nonempty r). by destruct (components r).
Qed.

Lemma components_no_sep n : has_sep n = false → components n = [n].
Proof.
  induction n as [|c r IH]; simpl; [done|].
  intros [Hc Hr]%orb_false_iff. rewrite Hc, (IH Hr). done.
Qed.

Lemma components_app_no_sep x n :
  has_sep n = false →
  ∃ cs l, components x = cs ++ [l] ∧ components (x +:+ n) = cs ++ [l +:+ n].
Proof.
  intros Hn. induction x as [|c r (cs & l & E1 & E2)].
  - exists [], "". by rewrite app_nil_l, (components_no_sep _ Hn).
  - rewrite app_cons. cbn [components]. rewrite E1, E2.
    destruct (is_sep c).
    + exists ("" :: cs), l. split; reflexivity.
    + destruct cs as [|h t].
      * exists [], (String c l). split; reflexivity.
      * exists (String c h :: t), l. split; reflexivity.
Qed.

Lemma components_last_empty x :
  endswith_sep x = true → last (components x) = Some "".
Proof.
  induction x as [|c r IH]; [done|].
  cbn [endswith_sep components]. destruct r as [|c' r'].
  - intros ->. done.
  - intros Hr. specialize (IH Hr).
    destruct (is_sep c).
    + rewrite last_cons, IH. done.
    + destruct (components (String c' r')) as [|h [|h' t]] eqn:E; [done| |].
      * simpl in IH. injection IH as ->.
        exfalso. clear -E. cbn [components] in E.
        destruct (is_sep c'); [injection E as E; by apply components_nonempty in E|].
        destruct (components r') as [|? ?] eqn:E'; [by apply components_nonempty in E'|].
        simplify_eq.
      * exact IH.
Qed.


Lemma plain_no_sep n : plain n → has_sep n = false.
Proof. by intros [? _]. Qed.

Lemma no_sep_startswith n : has_sep n = false → startswith_sep n = false.
Proof. destruct n; simpl; [done|]. by intros [? _]%orb_false_iff. Qed.

Lemma startswith_app a b : a ≠ "" → startswith_sep (a +:+ b) = startswith_sep a.
Proof. by destruct a. Qed.

Lemma app_not_empty a b : a ≠ "" → a +:+ b ≠ "".
Proof. by destruct a. Qed.

Lemma join_relative a n :
  startswith_sep n = false → a ≠ "" →
  join a n = (if endswith_sep a then a +:+ n else a +:+ String "/" n).
Proof.
  intros Hn Ha. unfold join. rewrite Hn, bool_decide_eq_false_2 by done. done.
Qed.

Lemma components_join a n :
  a ≠ "" → has_sep n = false →
  ∃ cs, components (join a n) = cs ++ [n]
        ∧ (components a = cs ∨ components a = cs ++ [""]).
Proof.
  intros Ha Hn. rewrite join_relative by auto using no_sep_startswith.
  destruct (endswith_sep a) eqn:E.
  - destruct (components_app_no_sep a n Hn) as (cs & l & E1 & E2).
    apply components_last_empty in E. rewrite E1, last_snoc in E.
    injection E as ->. exists cs. rewrite app_nil_l in E2. auto.
  - exists (components a). rewrite components_app_sep, (components_no_sep n) by done. auto.
Qed.

Lemma startswith_join a n :
  a ≠ "" → has_sep n = false → startswith_sep (join a n) = startswith_sep a.
Proof.
  intros Ha Hn. rewrite join_relative by auto using no_sep_startswith.
  destruct (endswith_sep a); by apply startswith_app.
Qed.

Lemma join_not_empty a n : a ≠ "" → has_sep n = false → join a n ≠ "".
Proof.
  intros Ha Hn. rewrite join_relative by auto using no_sep_startswith.
  destruct (endswith_sep a); by apply app_not_empty.
Qed.

End strings.

Section walking.
Import posixpath fs.
Implicit Types (t : gmap (list string) node) (p : list string).

Lemma walk_app t p xs ys :
  walk t p (xs ++ ys) =
  match walk t p xs with inr q => walk t q ys | inl e => inl e end.
Proof.
  revert p. induction xs as [|c xs IH]; intros p; cbn [walk app]; [done|].
  destruct (t !! p) as [[|]|]; try done.
  destruct (bool_decide (c = "" ∨ c = ".")); [done|].
  destruct (bool_decide (c = "..")); [|done].
  destruct (t !! removelast p) as [[|]|]; done.
Qed.

Lemma walk_name t p c :
  t !! p = Some Dir → c ≠ "" → c ≠ "." → c ≠ ".." →
  walk t p [c] = inr (p ++ [c]).
Proof.
  intros Hp ???. cbn [walk]. rewrite Hp.
  rewrite bool_decide_eq_false_2 by (by intros [?|?]).
  by rewrite bool_decide_eq_false_2.
Qed.

Lemma walk_empty_inv t p q : walk t p [""] = inr q → q = p ∧ t !! p = Some Dir.
Proof.
  cbn [walk]. destruct (t !! p) as [[|]|]; try done.
  rewrite bool_decide_eq_true_2 by auto. by intros [= ->].
Qed.

Lemma walk_snoc_dir t p cs c q :
  walk t p (cs ++ [c]) = inr q → ∃ r, walk t p cs = inr r ∧ t !! r = Some Dir.
Proof.
  rewrite walk_app. destruct (walk t p cs) as [|r]; [done|].
  cbn [walk]. destruct (t !! r) as [[|]|] eqn:E; intros; by eauto.
Qed.

End walking.

Section more_strings.
Import posixpath.

Lemma strip_trailing_snoc cs c : c ≠ "" → strip_trailing (cs ++ [c]) = cs ++ [c].
Proof.
  intros Hc. induction cs as [|x cs IH]; cbn [strip_trailing app].
  - by rewrite bool_decide_eq_false_2.
  - rewrite IH. by destruct cs.
Qed.

Lemma strip_trailing_spec cs : ∃ k, cs = strip_trailing cs ++ replicate k "".
Proof.
  induction cs as [|x cs [k IH]]; [by exists 0|].
  cbn [strip_trailing]. destruct (strip_trailing cs) as [|y ys] eqn:E.
  - case_bool_decide as Hx.
    + subst x. exists (S k). simpl in *. by rewrite <-IH.
    + exists k. simpl in *. by rewrite <-IH.
  - exists k. simpl in *. by rewrite <-IH.
Qed.

Lemma rstrip_no_sep n : has_sep n = false → rstrip_sep n = n.
Proof.
  induction n as [|c r IH]; [done|]. cbn [has_sep rstrip_sep].
  intros [Hc Hr]%orb_false_iff. rewrite (IH Hr), Hc. by destruct r.
Qed.

Lemma rstrip_app_no_sep x n :
  has_sep n = false → n ≠ "" → rstrip_sep (x +:+ n) = x +:+ n.
Proof.
  intros Hn Hne. induction x as [|c r IH].
  - by apply rstrip_no_sep.
  - rewrite app_cons. cbn [rstrip_sep]. rewrite IH.
    destruct (r +:+ n) eqn:E; [|done].
    destruct r; [by rewrite app_nil_l in E|done].
Qed.

Lemma cut_last_no_sep n : has_sep n = false → cut_last_sep n = ("", n).
Proof.
  induction n as [|c r IH]; [done|]. cbn [has_sep cut_last_sep].
  intros [Hc Hr]%orb_false_iff. by rewrite (IH Hr), Hc.
Qed.

Lemma cut_last_app_no_sep x n :
  has_sep n = false → endswith_sep x = true → cut_last_sep (x +:+ n) = (x, n).
Proof.
  intros Hn. induction x as [|c r IH]; [done|].
  rewrite app_cons. cbn [endswith_sep cut_last_sep]. destruct r as [|c' r'].
  - intros ->. by rewrite app_nil_l, cut_last_no_sep.
  - intros Hr. by rewrite (IH Hr).
Qed.

Lemma endswith_app_sep a y : endswith_sep (a +:+ String "/" y) = endswith_sep (String "/" y).
Proof.
  induction a as [|c r IH]; [done|].
  rewrite app_cons. cbn [endswith_sep]. rewrite IH.
  by destruct r.
Qed.

Lemma joined_prefix a n :
  startswith_sep n = false → a ≠ "" →
  ∃ x, join a n = x +:+ n ∧ endswith_sep x = true.
Proof.
  intros Hn Ha. rewrite join_relative by done.
  destruct (endswith_sep a) eqn:E; [by exists a|].
  exists (a +:+ "/"). split.
  - clear. induction a; [done|]. rewrite !app_cons. by f_equal.
  - by rewrite endswith_app_sep.
Qed.

Lemma basename_join a n : a ≠ "" → plain n → shutil._basename (join a n) = n.
Proof.
  intros Ha (Hn & Hne & _).
  destruct (joined_prefix a n) as (x & -> & Hx); auto using no_sep_startswith.
  unfold shutil._basename, basename.
  by rewrite rstrip_app_no_sep, cut_last_app_no_sep.
Qed.

End more_strings.

Section resolution.
Import posixpath fs.
Implicit Types (w : world) (p q : list string).

Lemma stat_inv w a cp nd :
  stat w a = inr (cp, nd) →
  a ≠ "" ∧ walk (tree w) (start w a) (components a) = inr cp ∧ tree w !! cp = Some nd.
Proof.
  unfold stat, resolve. case_bool_decide; [done|].
  destruct (walk _ _ _) as [|r]; [done|].
  destruct (tree w !! r) eqn:E; [|done]. intros [= <- <-]. done.
Qed.

Lemma stat_intro w a cp nd :
  a ≠ "" → walk (tree w) (start w a) (components a) = inr cp →
  tree w !! cp = Some nd → stat w a = inr (cp, nd).
Proof.
  intros Ha Hw Hl. unfold stat, resolve.
  by rewrite bool_decide_eq_false_2, Hw, Hl.
Qed.

Lemma start_join w a n :
  a ≠ "" → has_sep n = false → start w (join a n) = start w a.
Proof. intros. unfold start. by rewrite startswith_join. Qed.

(** Resolving [join a n] for a plain name [n]: the folder must resolve to
    a directory, and the entry is looked up in it. *)
Lemma walk_join w a n q :
  a ≠ "" → plain n →
  walk (tree w) (start w a) (components (join a n)) = inr q ↔
  ∃ r, stat w a = inr (r, Dir) ∧ q = r ++ [n].
Proof.
  intros Ha (Hn & Hne & Hd & Hdd).
  destruct (components_join a n Ha Hn) as (cs & -> & Hcs).
  rewrite walk_app. split.
  - destruct (walk (tree w) (start w a) cs) as [|r] eqn:E; [done|].
    intros Hq. assert (tree w !! r = Some Dir) as Hr.
    { revert Hq. cbn [walk]. by destruct (tree w !! r) as [[|]|]. }
    rewrite walk_name in Hq by done. injection Hq as <-.
    exists r. split; [|done]. apply stat_intro; [done| |done].
    destruct Hcs as [->| ->]; [done|].
    rewrite walk_app, E. cbn [walk]. rewrite Hr.
    by rewrite bool_decide_eq_true_2 by auto.
  - intros (r & (_ & Hw & Hr)%stat_inv & ->).
    destruct Hcs as [Hcs|Hcs]; rewrite Hcs in Hw.
    + rewrite Hw. by apply walk_name.
    + rewrite walk_app in Hw.
      destruct (walk (tree w) (start w a) cs) as [|r'] eqn:E; [done|].
      apply walk_empty_inv in Hw as [-> _]. by apply walk_name.
Qed.

Lemma resolve_join w a n q :
  a ≠ "" → plain n →
  resolve w (join a n) = inr q ↔ ∃ r, stat w a = inr (r, Dir) ∧ q = r ++ [n].
Proof.
  intros Ha Hn. unfold resolve.
  rewrite bool_decide_eq_false_2 by (apply join_not_empty; [done|apply Hn]).
  rewrite start_join by (done || apply Hn). by apply walk_join.
Qed.

Lemma components_join_strip a n :
  a ≠ "" → plain n →
  strip_trailing (components (join a n)) = components (join a n).
Proof.
  intros Ha (Hn & Hne & _).
  destruct (components_join a n Ha Hn) as (cs & -> & _).
  by apply strip_trailing_snoc.
Qed.

Lemma resolve_new_join w a n :
  a ≠ "" → plain n → resolve_new w (join a n) = resolve w (join a n).
Proof.
  intros. unfold resolve_new, resolve. by rewrite components_join_strip.
Qed.

Lemma final_is_name_join a n : a ≠ "" → plain n → final_is_name (join a n) = true.
Proof.
  intros Ha Hp. unfold final_is_name. rewrite components_join_strip by done.
  destruct Hp as (Hn & ? & ? & ?).
  destruct (components_join a n Ha Hn) as (cs & -> & _).
  rewrite last_snoc. by apply bool_decide_eq_true_2.
Qed.

Lemma endswith_join a n : a ≠ "" → plain n → endswith_sep (join a n) = false.
Proof.
  intros Ha (Hn & Hne & _). destruct (endswith_sep _) eqn:E; [|done].
  apply components_last_empty in E.
  destruct (components_join a n Ha Hn) as (cs & Hcs & _).
  rewrite Hcs, last_snoc in E. congruence.
Qed.

Lemma stat_not_empty w a r : stat w a = inr r → a ≠ "".
Proof. destruct r. by intros (? & _)%stat_inv. Qed.

End resolution.

Section invariants.
Import posixpath fs.
Implicit Types (w : world) (p q : list string).

Lemma same_dirs_refl w : same_dirs w w.
Proof. by split. Qed.

Lemma same_dirs_sym w w' : same_dirs w w' → same_dirs w' w.
Proof. intros [? H]. split; [done|]. intros p. by rewrite H. Qed.

Lemma same_dirs_trans w1 w2 w3 : same_dirs w1 w2 → same_dirs w2 w3 → same_dirs w1 w3.
Proof. intros [? H1] [? H2]. split; [congruence|]. intros p. by rewrite H1. Qed.

Lemma same_dirs_le w w' : same_dirs w w' → dirs_le w w'.
Proof. intros [? H]. split; [done|]. intros p. by rewrite H. Qed.

Lemma grows_le w w' : grows w w' → dirs_le w w'.
Proof.
  intros [? H]. split; [done|]. intros p Hp.
  destruct (H p) as [->|[? ?]]; congruence.
Qed.

Lemma grows_refl w : grows w w.
Proof. split; auto. Qed.

Lemma grows_trans w1 w2 w3 : grows w1 w2 → grows w2 w3 → grows w1 w3.
Proof.
  intros [? H1] [? H2]. split; [congruence|]. intros p.
  destruct (H2 p) as [->|[E2 ->]]; [apply H1|].
  destruct (H1 p) as [E1|[? ?]]; [|congruence].
  right. split; [congruence|done].
Qed.

Lemma only_changes_refl w P : only_changes w w P.
Proof. by intros q. Qed.

Lemma only_changes_weaken w w' (P Q : list string → Prop) :
  (∀ q, P q → Q q) → only_changes w w' P → only_changes w w' Q.
Proof. unfold only_changes. eauto. Qed.

Lemma only_changes_trans w1 w2 w3 (P : list string → Prop) :
  only_changes w1 w2 P → only_changes w2 w3 P → only_changes w1 w3 P.
Proof.
  intros H1 H2 q Hq.
  destruct (decide (tree w2 !! q = tree w1 !! q)) as [E|]; [|by apply H1].
  apply H2. congruence.
Qed.

Lemma walk_mono t t' p cs q :
  (∀ r, t !! r = Some Dir → t' !! r = Some Dir) →
  walk t p cs = inr q → walk t' p cs = inr q.
Proof.
  intros Hle. revert p. induction cs as [|c cs IH]; intros p; cbn [walk]; [done|].
  destruct (t !! p) as [[|]|] eqn:Hp; try done. rewrite (Hle _ Hp).
  destruct (bool_decide (c = "" ∨ c = ".")); [apply IH|].
  destruct (bool_decide (c = "..")); [|apply IH].
  destruct (t !! removelast p) as [[|]|] eqn:Hp'; try done.
  rewrite (Hle _ Hp'). apply IH.
Qed.

Lemma resolve_mono w w' a q : dirs_le w w' → resolve w a = inr q → resolve w' a = inr q.
Proof.
  intros [Hc Hle]. unfold resolve, start. rewrite Hc.
  case_bool_decide; [done|]. by apply walk_mono.
Qed.

Lemma resolve_new_mono w w' a q :
  dirs_le w w' → resolve_new w a = inr q → resolve_new w' a = inr q.
Proof.
  intros [Hc Hle]. unfold resolve_new, start. rewrite Hc.
  case_bool_decide; [done|]. by apply walk_mono.
Qed.

Lemma stat_resolve w a cp nd : stat w a = inr (cp, nd) → resolve w a = inr cp.
Proof.
  unfold stat. destruct (resolve w a) as [|r]; [done|].
  destruct (tree w !! r); [|done]. by intros [= <- _].
Qed.

Lemma stat_lookup w a cp nd : stat w a = inr (cp, nd) → tree w !! cp = Some nd.
Proof. by intros (_ & _ & ?)%stat_inv. Qed.

Lemma stat_of_resolve w a cp nd :
  resolve w a = inr cp → tree w !! cp = Some nd → stat w a = inr (cp, nd).
Proof. intros Hr Hl. unfold stat. by rewrite Hr, Hl. Qed.

Lemma stat_dir_mono w w' a cp :
  dirs_le w w' → stat w a = inr (cp, Dir) → stat w' a = inr (cp, Dir).
Proof.
  intros Hle Hs. apply stat_of_resolve.
  - eapply resolve_mono; [done|]. by eapply stat_resolve.
  - apply Hle. by eapply stat_lookup.
Qed.

Lemma isdir_true w a : isdir w a = true ↔ ∃ cp, stat w a = inr (cp, Dir).
Proof.
  unfold isdir.
  destruct (stat w a) as [|[cp [|]]];
    (split; [intros H; try discriminate H; eauto|by intros [? ?]]).
Qed.

Lemma isdir_same_dirs w w' a : same_dirs w w' → isdir w' a = isdir w a.
Proof.
  intros H. apply eq_true_iff_eq. rewrite !isdir_true.
  split; intros [cp Hcp]; exists cp.
  - eapply stat_dir_mono; [|done]. by apply same_dirs_le, same_dirs_sym.
  - eapply stat_dir_mono; [|done]. by apply same_dirs_le.
Qed.

Lemma resolve_same_dirs w w' a q :
  same_dirs w w' → resolve w' a = inr q → resolve w a = inr q.
Proof. intros H. apply resolve_mono. by apply same_dirs_le, same_dirs_sym. Qed.

Lemma resolve_new_same_dirs w w' a q :
  same_dirs w w' → resolve_new w' a = inr q → resolve_new w a = inr q.
Proof. intros H. apply resolve_new_mono. by apply same_dirs_le, same_dirs_sym. Qed.

(** Writing or removing a regular file leaves the directories alone. *)
Lemma same_dirs_insert_file w p d :
  tree w !! p ≠ Some Dir → same_dirs w (set_tree w (<[p := File d]> (tree w))).
Proof.
  intros Hp. split; [done|]. intros q. cbn.
  destruct (decide (p = q)) as [<-|]; [rewrite lookup_insert_eq|by rewrite lookup_insert_ne].
  split; [intros ?; contradiction|intros [=]].
Qed.

Lemma same_dirs_delete_file w p :
  tree w !! p ≠ Some Dir → same_dirs w (set_tree w (delete p (tree w))).
Proof.
  intros Hp. split; [done|]. intros q. cbn.
  destruct (decide (p = q)) as [<-|]; [rewrite lookup_delete_eq|by rewrite lookup_delete_ne].
  split; [intros ?; contradiction|intros [=]].
Qed.

End invariants.

Section primitives.
Import posixpath fs.
Implicit Types (w : world) (p q : list string).

Lemma set_tree_insert_changes w p nd :
  only_changes w (set_tree w (<[p := nd]> (tree w))) (λ q, q = p).
Proof.
  intros q Hq. cbn in Hq. destruct (decide (p = q)); [done|].
  by rewrite lookup_insert_ne in Hq.
Qed.

Lemma set_tree_delete_changes w p :
  only_changes w (set_tree w (delete p (tree w))) (λ q, q = p).
Proof.
  intros q Hq. cbn in Hq. destruct (decide (p = q)); [done|].
  by rewrite lookup_delete_ne in Hq.
Qed.

Lemma write_file_spec a d w r w' :
  os.write_file a d w = (r, w') →
  same_dirs w w' ∧ only_changes w w' (λ q, resolve_new w a = inr q).
Proof.
  unfold os.write_file, os.fail.
  destruct (endswith_sep a);
    [intros [= <- <-]; split; [apply same_dirs_refl|apply only_changes_refl]|].
  destruct (resolve_new w a) as [e|cp] eqn:E;
    [intros [= <- <-]; split; [apply same_dirs_refl|apply only_changes_refl]|].
  destruct (tree w !! cp) as [[|]|] eqn:Hl; intros [= <- <-].
  - split; [apply same_dirs_insert_file; congruence|].
    eapply only_changes_weaken, set_tree_insert_changes. by intros q ->.
  - split; [apply same_dirs_refl|apply only_changes_refl].
  - split; [apply same_dirs_insert_file; congruence|].
    eapply only_changes_weaken, set_tree_insert_changes. by intros q ->.
Qed.

Lemma unlink_spec a w r w' :
  os.unlink a w = (r, w') →
  same_dirs w w' ∧ only_changes w w' (λ q, resolve w a = inr q).
Proof.
  unfold os.unlink, os.fail.
  destruct (stat w a) as [e|[cp [d|]]] eqn:E; intros [= <- <-];
    try (split; [apply same_dirs_refl|apply only_changes_refl]).
  split.
  - apply same_dirs_delete_file. apply stat_lookup in E. congruence.
  - eapply only_changes_weaken, set_tree_delete_changes.
    intros q ->. by eapply stat_resolve.
Qed.

Lemma read_file_state a w r w' : os.read_file a w = (r, w') → w' = w.
Proof.
  unfold os.read_file, os.fail.
  destruct (stat w a) as [e|[cp [d|]]]; by intros [= <- <-].
Qed.

Lemma copyfile_spec src dst w r w' :
  shutil.copyfile src dst w = (r, w') →
  same_dirs w w' ∧ only_changes w w' (λ q, resolve_new w dst = inr q).
Proof.
  unfold shutil.copyfile.
  destruct (shutil._samefile w src dst);
    [intros [= <- <-]; split; [apply same_dirs_refl|apply only_changes_refl]|].
  unfold bind, try_except.
  destruct (os.read_file src w) as [[e|data] w1] eqn:Hr;
    apply read_file_state in Hr as ->;
    [intros [= <- <-]; split; [apply same_dirs_refl|apply only_changes_refl]|].
  destruct (os.write_file dst data w) as [[e|[]] w2] eqn:Hw;
    apply write_file_spec in Hw.
  - destruct (bool_decide (e = IsADirectoryError));
      [destruct (exists_ w2 dst)|]; by intros [= <- <-].
  - by intros [= <- <-].
Qed.

Lemma copy2_spec src dst w r w' :
  shutil.copy2 src dst w = (r, w') →
  same_dirs w w' ∧
  only_changes w w' (λ q,
    resolve_new w (if isdir w dst then join dst (basename src) else dst) = inr q).
Proof. unfold shutil.copy2. apply copyfile_spec. Qed.

(** [rename] of a regular file. *)
Lemma rename_file_spec old new w r w' sp d :
  stat w old = inr (sp, File d) →
  os.rename old new w = (r, w') →
  same_dirs w w' ∧
  only_changes w w' (λ q, resolve w old = inr q ∨ resolve_new w new = inr q).
Proof.
  intros Hs. unfold os.rename, os.fail. rewrite Hs.
  pose proof (stat_resolve _ _ _ _ Hs) as Hr.
  pose proof (stat_lookup _ _ _ _ Hs) as Hl.
  destruct (resolve_new w new) as [e|dp] eqn:E;
    [intros [= <- <-]; split; [apply same_dirs_refl|apply only_changes_refl]|].
  destruct (negb _);
    [intros [= <- <-]; split; [apply same_dirs_refl|apply only_changes_refl]|].
  case_bool_decide;
    [intros [= <- <-]; split; [apply same_dirs_refl|apply only_changes_refl]|].
  destruct (endswith_sep new);
    [intros [= <- <-]; split; [apply same_dirs_refl|apply only_changes_refl]|].
  assert (∀ t', t' = tree w !! dp → t' ≠ Some Dir →
    same_dirs w (set_tree w (<[dp:=File d]> (delete sp (tree w)))) ∧
    only_changes w (set_tree w (<[dp:=File d]> (delete sp (tree w))))
      (λ q, q = sp ∨ q = dp)) as Hgo.
  { intros t' -> Hdp. split.
    - eapply same_dirs_trans; [apply (same_dirs_delete_file w sp); congruence|].
      assert (tree (set_tree w (delete sp (tree w))) !! dp ≠ Some Dir) as Hd
        by (cbn; by rewrite lookup_delete_ne).
      exact (same_dirs_insert_file _ dp d Hd).
    - intros q Hq. cbn in Hq.
      destruct (decide (dp = q)) as [->|]; [by right|].
      destruct (decide (sp = q)) as [->|]; [by left|].
      by rewrite lookup_insert_ne, lookup_delete_ne in Hq. }
  destruct (tree w !! dp) as [[|]|] eqn:Hdp; intros [= <- <-].
  - destruct (Hgo _ eq_refl) as [? ?]; [done|]. split; [done|].
    eapply only_changes_weaken; [|done]. intros q [->| ->]; auto.
  - split; [apply same_dirs_refl|apply only_changes_refl].
  - destruct (Hgo _ eq_refl) as [? ?]; [done|]. split; [done|].
    eapply only_changes_weaken; [|done]. intros q [->| ->]; auto.
Qed.

Lemma rename_missing old new w e :
  stat w old = inl e → os.rename old new w = (inl (OSError e), w).
Proof. intros Hs. unfold os.rename. by rewrite Hs. Qed.

Lemma rename_error_state old new w e w' :
  os.rename old new w = (inl e, w') → w' = w.
Proof.
  unfold os.rename, os.fail.
  repeat (match goal with
          | |- context [match ?x with _ => _ end] => destruct x
          end; try by intros [= <- <-]); by intros [= <-].
Qed.

End primitives.

Section moving.
Import posixpath fs.
Implicit Types (w : world) (p q : list string).

Lemma isdir_stat_file w a cp d : stat w a = inr (cp, File d) → isdir w a = false.
Proof. intros H. unfold isdir. by rewrite H. Qed.

Lemma isdir_stat_error w a e : stat w a = inl e → isdir w a = false.
Proof. intros H. unfold isdir. by rewrite H. Qed.

Lemma exists_false_isdir w a : exists_ w a = false → isdir w a = false.
Proof. unfold exists_, isdir. by destruct (stat w a) as [|[? [|]]]. Qed.

Lemma samefile_isdir w src dst :
  shutil._samefile w src dst = true → isdir w dst = true → isdir w src = true.
Proof.
  unfold shutil._samefile, samefile. intros Hs (cq & Hq)%isdir_true.
  rewrite Hq in Hs. destruct (stat w src) as [|[cp nd]] eqn:Hp; [done|].
  apply bool_decide_eq_true_1 in Hs as ->.
  apply stat_lookup in Hq. pose proof (stat_lookup _ _ _ _ Hp) as Hl.
  rewrite Hq in Hl. injection Hl as <-. apply isdir_true. eauto.
Qed.

Lemma fallback_spec src real_dst w r w' :
  (let* _ := shutil.copy2 src real_dst in os.unlink src)%py w = (r, w') →
  same_dirs w w' ∧
  only_changes w w' (λ q,
    resolve w src = inr q ∨
    resolve_new w (if isdir w real_dst then join real_dst (basename src)
                   else real_dst) = inr q).
Proof.
  unfold bind.
  destruct (shutil.copy2 src real_dst w) as [[e|[]] w1] eqn:Hc;
    apply copy2_spec in Hc as [Hs1 Hc1].
  - intros [= <- <-]. split; [done|].
    eapply only_changes_weaken; [|done]. auto.
  - intros [Hs2 Hc2]%unlink_spec. split; [by eapply same_dirs_trans|].
    apply (only_changes_trans _ w1).
    + eapply only_changes_weaken; [|done]. auto.
    + eapply only_changes_weaken; [|done]. cbn. intros q Hq. left.
      by eapply resolve_same_dirs.
Qed.

Lemma move_to_nondir_spec src dst real_dst w r w' :
  isdir w src = false →
  shutil.move_to src dst real_dst w = (r, w') →
  same_dirs w w' ∧
  only_changes w w' (λ q,
    resolve w src = inr q ∨
    resolve_new w (if isdir w real_dst then join real_dst (basename src)
                   else real_dst) = inr q ∨
    resolve_new w real_dst = inr q).
Proof.
  intros Hnd. unfold shutil.move_to.
  unfold bind at 1. unfold try_except.
  destruct (os.rename src real_dst w) as [[e|[]] w1] eqn:Hren.
  - apply rename_error_state in Hren as ->.
    destruct (os.is_OSError e).
    + rewrite Hnd.
      destruct ((let* _ := shutil.copy2 src real_dst in os.unlink src)%py w)
        as [[e'|[]] w2] eqn:Hf; apply fallback_spec in Hf as [? ?];
        intros [= <- <-]; (split; [done|]);
        (eapply only_changes_weaken; [|done]); cbn; intros q; tauto.
    + intros [= <- <-]. split; [apply same_dirs_refl|apply only_changes_refl].
  - intros [= <- <-].
    destruct (stat w src) as [e|[sp [d|]]] eqn:Hs.
    + by rewrite (rename_missing _ _ _ _ Hs) in Hren.
    + destruct (rename_file_spec _ _ _ _ _ _ _ Hs Hren) as [? ?].
      split; [done|]. eapply only_changes_weaken; [|done]. cbn. intros q; tauto.
    + unfold isdir in Hnd. by rewrite Hs in Hnd.
Qed.

(** A move whose source is not a directory leaves the directories alone
    and touches at most the source entry and one destination entry. *)
Lemma move_nondir_spec src dst w r w' :
  isdir w src = false →
  shutil.move src dst w = (r, w') →
  same_dirs w w' ∧
  only_changes w w' (λ q,
    resolve w src = inr q ∨
    (isdir w dst = false ∧ resolve_new w dst = inr q) ∨
    (isdir w dst = true ∧
     resolve_new w (join dst (shutil._basename src)) = inr q)).
Proof.
  intros Hnd. unfold shutil.move. destruct (isdir w dst) eqn:Hd.
  - destruct (shutil._samefile w src dst) eqn:Hsf.
    { apply samefile_isdir in Hsf; congruence. }
    destruct (exists_ w (join dst (shutil._basename src))) eqn:Hex.
    { intros [= <- <-]. split; [apply same_dirs_refl|apply only_changes_refl]. }
    intros [? Hc]%move_to_nondir_spec; [|done]. split; [done|].
    eapply only_changes_weaken; [|done]. cbn.
    rewrite (exists_false_isdir _ _ Hex). intros q. intuition.
  - intros [? Hc]%move_to_nondir_spec; [|done]. split; [done|].
    eapply only_changes_weaken; [|done]. cbn. rewrite Hd. intros q. intuition.
Qed.

End moving.

Section relocation.
Import posixpath fs.
Implicit Types (w : world) (p q : list string).

Lemma set_tree_id w : set_tree w (tree w) = w.
Proof. by destruct w. Qed.


Lemma stat_join w a n r :
  stat w a = inr (r, Dir) → plain n →
  resolve w (join a n) = inr (r ++ [n]).
Proof.
  intros Hs Hn. apply resolve_join; [by eapply stat_not_empty|done|eauto].
Qed.

Lemma stat_join_lookup w a n r :
  stat w a = inr (r, Dir) → plain n →
  stat w (join a n) =
    match tree w !! (r ++ [n]) with
    | Some nd => inr (r ++ [n], nd)
    | None => inl ENOENT
    end.
Proof. intros Hs Hn. unfold stat. by rewrite (stat_join _ _ _ _ Hs Hn). Qed.

Lemma snoc_inj_name (a b : list string) (n m : string) :
  a ++ [n] = b ++ [m] → a = b ∧ n = m.
Proof. intros H. by apply app_inj_tail in H. Qed.

End relocation.


(* ===================================================================== *)
(** * Relocating distinct plain names *)
(* ===================================================================== *)

Section relocation_run.
Import posixpath fs.
Implicit Types (w : world) (p q : list string).

Lemma move_files_cons n names src dst w :
  move_files (n :: names) src dst w =
  match shutil.move (join src n) (join dst n) w with
  | (inr _, w1) => move_files names src dst w1
  | (inl e, w1) => (inl e, w1)
  end.
Proof. reflexivity. Qed.


End relocation_run.


(* ===================================================================== *)
(** * Missing sources and the log of calls *)
(* ===================================================================== *)

Section aborting.
Import posixpath fs.
Implicit Types (w : world) (p q : list string).

Lemma move_files_app l1 l2 src dst w :
  move_files (l1 ++ l2) src dst w =
  match move_files l1 src dst w with
  | (inr _, w1) => move_files l2 src dst w1
  | (inl e, w1) => (inl e, w1)
  end.
Proof.
  revert w. induction l1 as [|n l1 IH]; intros w; [done|].
  cbn [app]. rewrite !move_files_cons.
  destruct (shutil.move _ _ w) as [[e|?] w1]; [done|]. apply IH.
Qed.

Lemma exists_false_stat w a : exists_ w a = false → ∃ e, stat w a = inl e.
Proof. unfold exists_. destruct (stat w a); [eauto|done]. Qed.

Lemma samefile_missing w src dst e :
  stat w src = inl e → shutil._samefile w src dst = false.
Proof. intros H. unfold shutil._samefile, samefile. by rewrite H. Qed.

Lemma copy2_missing w src dst e :
  stat w src = inl e → shutil.copy2 src dst w = (inl (OSError e), w).
Proof.
  intros H. unfold shutil.copy2, shutil.copyfile.
  rewrite (samefile_missing _ _ _ _ H).
  unfold bind, os.read_file. by rewrite H.
Qed.

Lemma move_to_missing w src dst real_dst e :
  stat w src = inl e →
  shutil.move_to src dst real_dst w = (inl (OSError e), w).
Proof.
  intros H. unfold shutil.move_to, bind, try_except.
  rewrite (rename_missing _ _ _ _ H). cbn [os.is_OSError].
  rewrite (isdir_stat_error _ _ _ H).
  by rewrite (copy2_missing _ _ _ _ H).
Qed.

Lemma move_missing w src dst :
  exists_ w src = false →
  shutil.move src dst w = (inl (missing_source_error w src dst), w).
Proof.
  intros [e He]%exists_false_stat. unfold shutil.move, missing_source_error.
  rewrite He. destruct (isdir w dst); cbn [andb].
  - rewrite (samefile_missing _ _ _ _ He).
    destruct (exists_ w _); [done|]. by apply move_to_missing.
  - by apply move_to_missing.
Qed.

End aborting.

Section tracing.
Import posixpath fs.

Lemma traced_cons n l src dst w log :
  move_files_traced (n :: l) src dst (w, log) =
  match shutil.move (join src n) (join dst n) w with
  | (inr _, w1) => move_files_traced l src dst (w1, log ++ [call_of src dst n])
  | (inl e, w1) => (inl e, (w1, log ++ [call_of src dst n]))
  end.
Proof.
  unfold move_files_traced. cbn [move_files_with]. unfold bind at 1, traced at 1.
  cbn [fst snd]. by destruct (shutil.move _ _ w) as [[e|?] w1].
Qed.

(** The traced run computes what the plain run computes, and its log is
    a prefix of the calls for the list, in the order of the list. *)
Lemma traced_run l src dst : ∀ w log,
  ∃ k, k ≤ length l ∧
    move_files_traced l src dst (w, log) =
      ((move_files l src dst w).1,
       ((move_files l src dst w).2, log ++ (call_of src dst <$> take k l))) ∧
    (∀ e, (move_files l src dst w).1 = inl e →
        ∃ l1 n l2 w1, l = l1 ++ n :: l2 ∧ k = S (length l1) ∧
          move_files l1 src dst w = (inr (), w1) ∧
          shutil.move (join src n) (join dst n) w1
            = (inl e, (move_files l src dst w).2)) ∧
    ((move_files l src dst w).1 = inr () → k = length l).
Proof.
  induction l as [|n l IH]; intros w log.
  { exists 0. cbn. rewrite app_nil_r. repeat split; [lia|done]. }
  rewrite traced_cons, move_files_cons.
  destruct (shutil.move (join src n) (join dst n) w) as [[e|?] w1] eqn:Hm.
  - exists 1. cbn. repeat split; [lia| |done].
    intros ? [= <-]. exists [], n, l, w. by rewrite Hm.
  - destruct (IH w1 (log ++ [call_of src dst n])) as (k & Hk & -> & Hfail & Hok).
    exists (S k). cbn [length take fmap list_fmap]. rewrite <-app_assoc.
    repeat split; [lia| |by intros ->%Hok].
    intros e (l1 & m & l2 & w2 & -> & -> & H1 & H2)%Hfail.
    exists (n :: l1), m, l2, w2. rewrite move_files_cons, Hm. done.
Qed.

End tracing.


(* ===================================================================== *)
(** * os.path.split against resolution *)
(* ===================================================================== *)

Section split_lemmas.
Import posixpath.

Lemma cut_last_spec p h t :
  cut_last_sep p = (h, t) →
  p = h +:+ t ∧ has_sep t = false ∧ (h = "" ∨ endswith_sep h = true).
Proof.
  revert h t. induction p as [|c r IH]; intros h t; cbn [cut_last_sep].
  { intros [= <- <-]. auto. }
  destruct (cut_last_sep r) as [h' t'].
  destruct (IH _ _ eq_refl) as (-> & Ht & Hh).
  destruct h' as [|c' h''].
  - destruct (is_sep c) eqn:Hc; intros [= <- <-].
    + auto.
    + rewrite app_nil_l. cbn [has_sep]. rewrite Hc, Ht. auto.
  - intros [= <- <-]. repeat split; [done|]. right.
    destruct Hh as [?|Hh]; [done|]. done.
Qed.

Lemma rstrip_empty_sep s : rstrip_sep s = "" → s ≠ "" → ∃ y, s = String "/" y.
Proof.
  destruct s as [|c r]; [done|]. cbn [rstrip_sep].
  destruct (rstrip_sep r); [|done].
  unfold is_sep. case_bool_decide as Hc; [|done]. subst c. eauto.
Qed.

Lemma rstrip_head h head :
  endswith_sep h = true → rstrip_sep h = head → head ≠ "" →
  ∃ y, h = head +:+ String "/" y.
Proof.
  revert head. induction h as [|c r IH]; intros head; [done|].
  cbn [endswith_sep rstrip_sep]. destruct (rstrip_sep r) as [|c' r'] eqn:Hr.
  - destruct (is_sep c) eqn:Hc; [by intros _ <-|]. intros He <- _.
    destruct r as [|c2 r2]; [congruence|].
    destruct (rstrip_empty_sep _ Hr) as [y ->]; [done|]. by exists y.
  - intros He <- _. destruct r as [|c2 r2]; [done|].
    destruct (IH _ He eq_refl) as [y Hy]; [done|]. exists y.
    rewrite app_cons. by rewrite <-Hy.
Qed.

(** A string of separators only resolves like the root. *)
Lemma rstrip_empty_components s :
  rstrip_sep s = "" → ∃ k, components s = replicate (S k) "".
Proof.
  induction s as [|c r IH]; [by exists 0|]. cbn [rstrip_sep components].
  destruct (rstrip_sep r); [|done]. destruct (IH eq_refl) as [k ->].
  destruct (is_sep c); [|done]. intros _. by exists (S k).
Qed.

Lemma rstrip_spec s : ∃ y, s = rstrip_sep s +:+ y ∧ rstrip_sep y = "".
Proof.
  induction s as [|c r (y & Hy & Hall)]; [by exists ""|].
  cbn [rstrip_sep]. destruct (rstrip_sep r) as [|c' r'] eqn:Hr.
  - rewrite app_nil_l in Hy. subst y. destruct (is_sep c) eqn:Hc.
    + exists (String c r). split; [done|]. cbn [rstrip_sep]. by rewrite Hr, Hc.
    + exists r. split; [done|]. done.
  - exists y. split; [|done]. rewrite app_cons. by rewrite <-Hy.
Qed.

Lemma components_app_allsep head y :
  rstrip_sep y = "" → ∃ k, components (head +:+ y) = components head ++ replicate k "".
Proof.
  intros Hall. destruct (decide (y = "")) as [->|Hy].
  { exists 0. by rewrite app_empty_r, app_nil_r. }
  destruct (rstrip_empty_sep _ Hall Hy) as [y' ->].
  assert (rstrip_sep y' = "") as Hall'.
  { revert Hall. cbn [rstrip_sep]. by destruct (rstrip_sep y'). }
  destruct (rstrip_empty_components _ Hall') as [k Hk].
  exists (S k). by rewrite components_app_sep, Hk.
Qed.

End split_lemmas.

Section split_resolution.
Import posixpath fs.
Implicit Types (w : world) (p q : list string).

Lemma walk_replicate_inv t p k q :
  walk t p (replicate k "") = inr q → q = p.
Proof.
  induction k as [|k IH]; cbn [replicate walk]; [by intros [= ->]|].
  destruct (t !! p) as [[|]|]; done.
Qed.

Lemma walk_replicate_dir t p k :
  t !! p = Some Dir → walk t p (replicate k "") = inr p.
Proof.
  intros Hp. induction k as [|k IH]; cbn [replicate walk]; [done|].
  rewrite Hp. by rewrite bool_decide_eq_true_2 by auto.
Qed.

Lemma walk_start_dir t p cs q :
  cs ≠ [] → walk t p cs = inr q → t !! p = Some Dir.
Proof.
  destruct cs as [|c cs]; [done|]. intros _. cbn [walk].
  by destruct (t !! p) as [[|]|].
Qed.

Lemma walk_prefix_dir t p xs ys q :
  ys ≠ [] → walk t p (xs ++ ys) = inr q →
  ∃ r, walk t p xs = inr r ∧ t !! r = Some Dir.
Proof.
  intros Hys. rewrite walk_app. destruct (walk t p xs) as [|r]; [done|].
  intros H. exists r. split; [done|]. by eapply walk_start_dir.
Qed.

Lemma resolve_new_of_resolve w a cp :
  resolve w a = inr cp → resolve_new w a = inr cp.
Proof.
  unfold resolve, resolve_new. case_bool_decide; [done|].
  destruct (strip_trailing_spec (components a)) as [k Hk].
  rewrite Hk at 1. rewrite walk_app.
  destruct (walk _ _ (strip_trailing _)) as [|r]; [done|].
  by intros ->%walk_replicate_inv.
Qed.

Lemma resolve_after_new w w' a cp :
  dirs_le w w' → resolve_new w a = inr cp → tree w' !! cp = Some Dir →
  resolve w' a = inr cp.
Proof.
  intros Hle Hn Hcp. apply (resolve_new_mono _ _ _ _ Hle) in Hn.
  revert Hn. unfold resolve, resolve_new. case_bool_decide; [done|].
  destruct (strip_trailing_spec (components a)) as [k Hk].
  intros Hn. rewrite Hk, walk_app, Hn. by apply walk_replicate_dir.
Qed.

(** The head that [os.path.split] returns names a directory on the way
    to any path that resolves. *)
Lemma split_head_dir w a head tail cp :
  split a = (head, tail) → head ≠ "" → tail ≠ "" →
  resolve w a = inr cp → ∃ r, stat w head = inr (r, Dir).
Proof.
  unfold split. destruct (cut_last_sep a) as [h t] eqn:Hcut.
  destruct (cut_last_spec _ _ _ Hcut) as (-> & Ht & Hh).
  intros [= Hhead <-] Hne Htne. unfold resolve.
  case_bool_decide as Ha; [done|]. intros Hw.
  assert (h ≠ "") as Hhne.
  { intros ->. by cbn in Hhead. }
  destruct Hh as [?|Hh]; [done|].
  assert (start w (h +:+ t) = start w h) as Hst.
  { unfold start. by rewrite startswith_app. }
  destruct (rstrip_sep h) as [|c s] eqn:Hr.
  - subst head. destruct (rstrip_empty_components _ Hr) as [k Hk].
    destruct (rstrip_empty_sep _ Hr Hhne) as [y ->].
    assert (tree w !! [] = Some Dir) as Hroot.
    { eapply walk_start_dir; [|exact Hw]. apply components_nonempty. }
    exists []. apply stat_intro; [done| |done].
    rewrite Hk. assert (start w (String "/" y) = []) as -> by reflexivity.
    by apply walk_replicate_dir.
  - destruct (rstrip_head h head Hh) as [y ->]; [by rewrite Hr|done|].
    rewrite Hst in Hw.
    assert ((head +:+ String "/" y) +:+ t = head +:+ String "/" (y +:+ t)) as Hre.
    { clear. induction head; [done|]. rewrite !app_cons. by f_equal. }
    rewrite Hre, components_app_sep in Hw.
    destruct (walk_prefix_dir _ _ _ _ _ (components_nonempty _) Hw) as (r & Hr' & Hd).
    exists r. apply stat_intro; [done| |done].
    unfold start in *. by rewrite startswith_app in Hr'.
Qed.

Lemma split_tail_empty w a head cp :
  split a = (head, "") → resolve w a = inr cp → tree w !! cp = Some Dir →
  head = "" ∨ stat w head = inr (cp, Dir).
Proof.
  unfold split. destruct (cut_last_sep a) as [h t] eqn:Hcut.
  destruct (cut_last_spec _ _ _ Hcut) as (-> & Ht & Hh).
  intros [= Hhead ->]. rewrite app_empty_r. intros Hres Hcp.
  destruct (rstrip_sep h) as [|c s] eqn:Hr.
  - subst head. destruct (decide (h = "")); [by left|]. right.
    by apply stat_of_resolve.
  - right. assert (head ≠ "") as Hne by (by subst).
    destruct (rstrip_spec h) as (y & Hy & Hall). rewrite Hr, Hhead in Hy.
    destruct (components_app_allsep head y Hall) as [k Hk].
    revert Hres. unfold resolve. case_bool_decide; [done|].
    rewrite Hy at 1 2. rewrite Hk, walk_app.
    unfold start. rewrite startswith_app by done.
    destruct (walk _ _ (components head)) as [|r] eqn:Hw; [done|].
    intros ->%walk_replicate_inv.
    apply stat_intro; done.
Qed.

End split_resolution.


(* ===================================================================== *)
(** * os.makedirs *)
(* ===================================================================== *)

Section makedirs_calls.
Import posixpath fs.
Implicit Types (w : world) (p q : list string).

Lemma grows_insert_dir w cp :
  tree w !! cp = None → grows w (set_tree w (<[cp := Dir]> (tree w))).
Proof.
  intros Hcp. split; [done|]. intros q. cbn.
  destruct (decide (cp = q)) as [<-|].
  - right. by rewrite lookup_insert_eq.
  - left. by rewrite lookup_insert_ne.
Qed.

Lemma mkdir_grows a w r w' : os.mkdir a w = (r, w') → grows w w'.
Proof.
  unfold os.mkdir, os.fail.
  destruct (resolve_new w a) as [e|cp]; [intros [= <- <-]; apply grows_refl|].
  destruct (tree w !! cp) eqn:Hcp; intros [= <- <-]; [apply grows_refl|].
  by apply grows_insert_dir.
Qed.

Lemma mkdir_error_state a w e w' : os.mkdir a w = (inl e, w') → w' = w.
Proof.
  unfold os.mkdir, os.fail.
  destruct (resolve_new w a) as [|cp]; [by intros [= <- <-]|].
  destruct (tree w !! cp); by intros [= <-].
Qed.

Lemma mkdir_ok_isdir a w w' : os.mkdir a w = (inr (), w') → isdir w' a = true.
Proof.
  unfold os.mkdir, os.fail.
  destruct (resolve_new w a) as [|cp] eqn:Hn; [done|].
  destruct (tree w !! cp) eqn:Hcp; [done|]. intros [= <-].
  apply isdir_true. exists cp. apply stat_of_resolve.
  - eapply resolve_after_new; [|done|].
    + by apply grows_le, grows_insert_dir.
    + cbn. by rewrite lookup_insert_eq.
  - cbn. by rewrite lookup_insert_eq.
Qed.

Lemma mkdir_existing a w :
  exists_ w a = true → os.mkdir a w = (inl FileExistsError, w).
Proof.
  unfold exists_. destruct (stat w a) as [|[cp nd]] eqn:Hs; [done|]. intros _.
  unfold os.mkdir.
  rewrite (resolve_new_of_resolve _ _ _ (stat_resolve _ _ _ _ Hs)).
  by rewrite (stat_lookup _ _ _ _ Hs).
Qed.

Lemma mkdir_or_exists_grows a ok w r w' :
  os.mkdir_or_exists a ok w = (r, w') → grows w w'.
Proof.
  unfold os.mkdir_or_exists, try_except.
  destruct (os.mkdir a w) as [[e|[]] w1] eqn:Hm.
  - apply mkdir_error_state in Hm as ->.
    destruct (os.is_OSError e); [|intros [= <- <-]; apply grows_refl].
    destruct (negb ok || negb (isdir w a)); intros [= <- <-]; apply grows_refl.
  - intros [= <- <-]. by eapply mkdir_grows.
Qed.

Lemma mkdir_or_exists_ok a w w' :
  os.mkdir_or_exists a true w = (inr (), w') → isdir w' a = true.
Proof.
  unfold os.mkdir_or_exists, try_except.
  destruct (os.mkdir a w) as [[e|[]] w1] eqn:Hm.
  - apply mkdir_error_state in Hm as ->.
    destruct (os.is_OSError e); [|done]. cbn [negb orb].
    destruct (isdir w a) eqn:Hd; [|done]. by intros [= <-].
  - intros [= <-]. by eapply mkdir_ok_isdir.
Qed.

Lemma isdir_exists w a : isdir w a = true → exists_ w a = true.
Proof. unfold isdir, exists_. by destruct (stat w a). Qed.

Lemma mkdir_or_exists_existing a w :
  isdir w a = true → os.mkdir_or_exists a true w = (inr (), w).
Proof.
  intros Hd. unfold os.mkdir_or_exists, try_except.
  rewrite (mkdir_existing _ _ (isdir_exists _ _ Hd)). cbn. by rewrite Hd.
Qed.

Lemma makedirs_rec_unfold fuel name ok w :
  os.makedirs_rec (S fuel) name ok w =
  let head_tail :=
    if bool_decide ((split name).2 = "") then split (split name).1
    else split name in
  if bool_decide (head_tail.1 ≠ "") && bool_decide (head_tail.2 ≠ "")
     && negb (exists_ w head_tail.1)
  then
    match try_except (os.makedirs_rec fuel head_tail.1 ok)
            (λ e, bool_decide (e = FileExistsError)) (λ _, ret ()) w with
    | (inr _, w1) =>
        if bool_decide (head_tail.2 = ".") then (inr (), w1)
        else os.mkdir_or_exists name ok w1
    | (inl e, w1) => (inl e, w1)
    end
  else os.mkdir_or_exists name ok w.
Proof.
  cbn [os.makedirs_rec]. destruct (split name) as [h t]. cbn [fst snd].
  destruct (bool_decide (t = "")).
  - destruct (split h) as [h' t']. cbn [fst snd]. unfold bind.
    destruct (_ && _ && _); [|done].
    destruct (try_except _ _ _ w) as [[|] ?]; [done|].
    by destruct (bool_decide (t' = ".")).
  - cbn [fst snd]. unfold bind.
    destruct (_ && _ && _); [|done].
    destruct (try_except _ _ _ w) as [[|] ?]; [done|].
    by destruct (bool_decide (t = ".")).
Qed.

Lemma last_component_eq name :
  last_component name =
  (if bool_decide ((split name).2 = "") then split (split name).1
   else split name).2.
Proof.
  unfold last_component. destruct (split name) as [h t]. cbn [fst snd].
  by destruct (bool_decide (t = "")).
Qed.

Lemma makedirs_rec_grows fuel : ∀ name ok w r w',
  os.makedirs_rec fuel name ok w = (r, w') → grows w w'.
Proof.
  induction fuel as [|fuel IH]; intros name ok w r w'.
  { intros [= <- <-]. apply grows_refl. }
  rewrite makedirs_rec_unfold. cbv zeta.
  destruct (_ && _ && _); [|apply mkdir_or_exists_grows].
  unfold try_except.
  destruct (os.makedirs_rec fuel _ ok w) as [[e|[]] w1] eqn:Hrec;
    apply IH in Hrec.
  - destruct (bool_decide (e = FileExistsError)); cbn [ret].
    + destruct (bool_decide _); [by intros [= <- <-]|].
      intros ?%mkdir_or_exists_grows. by eapply grows_trans.
    + by intros [= <- <-].
  - destruct (bool_decide _); [by intros [= <- <-]|].
    intros ?%mkdir_or_exists_grows. by eapply grows_trans.
Qed.

(** With [exist_ok=True], [os.makedirs] of an existing directory does
    nothing and does not raise. *)
Lemma makedirs_rec_existing fuel name w :
  isdir w name = true → os.makedirs_rec (S fuel) name true w = (inr (), w).
Proof.
  intros Hd. rewrite makedirs_rec_unfold. cbv zeta.
  apply isdir_true in Hd as [cp Hs].
  pose proof (stat_resolve _ _ _ _ Hs) as Hr.
  pose proof (stat_lookup _ _ _ _ Hs) as Hl.
  assert (isdir w name = true) as Hd by (apply isdir_true; eauto).
  destruct (split name) as [h t] eqn:Hsp. cbn [fst snd].
  destruct (bool_decide (t = "")) eqn:Htail.
  - apply bool_decide_eq_true_1 in Htail as ->.
    destruct (split h) as [h' t'] eqn:Hsp'. cbn [fst snd].
    destruct (_ && _ && _) eqn:Hcond; [|by apply mkdir_or_exists_existing].
    exfalso. apply andb_true_iff in Hcond as [[Hh Ht]%andb_true_iff Hex].
    apply bool_decide_eq_true_1 in Hh, Ht. apply negb_true_iff in Hex.
    destruct (split_tail_empty _ _ _ _ Hsp Hr Hl) as [->|Hs'].
    { by injection Hsp' as <- <-. }
    destruct (split_head_dir _ _ _ _ _ Hsp' Hh Ht (stat_resolve _ _ _ _ Hs'))
      as [r Hr'].
    unfold exists_ in Hex. by rewrite Hr' in Hex.
  - cbn [fst snd].
    destruct (_ && _ && _) eqn:Hcond; [|by apply mkdir_or_exists_existing].
    exfalso. apply andb_true_iff in Hcond as [[Hh Ht]%andb_true_iff Hex].
    apply bool_decide_eq_true_1 in Hh, Ht. apply negb_true_iff in Hex.
    destruct (split_head_dir _ _ _ _ _ Hsp Hh Ht Hr) as [r Hr'].
    unfold exists_ in Hex. by rewrite Hr' in Hex.
Qed.

Lemma makedirs_existing name w :
  isdir w name = true → os.makedirs name true w = (inr (), w).
Proof. apply makedirs_rec_existing. Qed.

(** When [os.makedirs] returns normally for a path whose last component
    is not a dot, the path names a directory. *)
Lemma makedirs_ok_isdir name w w' :
  last_component name ≠ "." →
  os.makedirs name true w = (inr (), w') → isdir w' name = true.
Proof.
  intros Hlast. unfold os.makedirs. rewrite makedirs_rec_unfold. cbv zeta.
  rewrite last_component_eq in Hlast.
  destruct (_ && _ && _); [|apply mkdir_or_exists_ok].
  destruct (try_except _ _ _ w) as [[e|[]] w1]; [done|].
  rewrite bool_decide_eq_false_2 by done. apply mkdir_or_exists_ok.
Qed.

Lemma makedirs_grows name ok w r w' :
  os.makedirs name ok w = (r, w') → grows w w'.
Proof. apply makedirs_rec_grows. Qed.

End makedirs_calls.

Section makedirs_fuel.
Import posixpath fs.

Lemma length_app (a b : string) :
  String.length (a +:+ b) = String.length a + String.length b.
Proof. induction a as [|c r IH]; [done|]. rewrite app_cons. cbn. by rewrite IH. Qed.

Lemma rstrip_length s : String.length (rstrip_sep s) ≤ String.length s.
Proof.
  induction s as [|c r IH]; [done|]. cbn [rstrip_sep].
  destruct (rstrip_sep r); [destruct (is_sep c)|]; cbn in *; lia.
Qed.

Lemma split_head_le a head tail :
  split a = (head, tail) → String.length head ≤ String.length a.
Proof.
  unfold split. destruct (cut_last_sep a) as [h t] eqn:Hcut.
  destruct (cut_last_spec _ _ _ Hcut) as (-> & _ & _).
  intros [= <- <-]. rewrite length_app. pose proof (rstrip_length h).
  destruct (rstrip_sep h); cbn in *; lia.
Qed.

Lemma split_head_lt a head tail :
  split a = (head, tail) → tail ≠ "" → String.length head < String.length a.
Proof.
  unfold split. destruct (cut_last_sep a) as [h t] eqn:Hcut.
  destruct (cut_last_spec _ _ _ Hcut) as (-> & _ & _).
  intros [= <- <-] Ht. rewrite length_app. pose proof (rstrip_length h).
  assert (0 < String.length t) by (destruct t; [done|cbn; lia]).
  destruct (rstrip_sep h); cbn in *; lia.
Qed.

Lemma mkdir_or_exists_error a ok w e w' :
  os.mkdir_or_exists a ok w = (inl e, w') → e ≠ RecursionError.
Proof.
  unfold os.mkdir_or_exists, try_except, os.mkdir, os.fail.
  destruct (resolve_new w a) as [n|cp].
  - cbn [os.is_OSError]. destruct (negb ok || negb (isdir w a)); by intros [= <- _].
  - destruct (tree w !! cp); [|done].
    cbn [os.is_OSError]. destruct (negb ok || negb (isdir w a)); by intros [= <- _].
Qed.

(** The fuel of [os.makedirs] never runs out: every recursive call is on
    a strictly shorter path. *)
Lemma makedirs_rec_fuel fuel : ∀ name ok w e w',
  String.length name < fuel →
  os.makedirs_rec fuel name ok w = (inl e, w') → e ≠ RecursionError.
Proof.
  induction fuel as [|fuel IH]; intros name ok w e w' Hlen; [lia|].
  rewrite makedirs_rec_unfold. cbv zeta.
  destruct (_ && _ && _) eqn:Hcond; [|apply mkdir_or_exists_error].
  apply andb_true_iff in Hcond as [[_ Ht]%andb_true_iff _].
  apply bool_decide_eq_true_1 in Ht.
  assert (String.length
            (if bool_decide ((split name).2 = "") then split (split name).1
             else split name).1 < fuel) as Hshort.
  { destruct (split name) as [h t] eqn:Hsp. cbn [fst snd] in *.
    pose proof (split_head_le _ _ _ Hsp).
    destruct (bool_decide (t = "")) eqn:Hb.
    - destruct (split h) as [h' t'] eqn:Hsp'. cbn [fst snd] in *.
      pose proof (split_head_lt _ _ _ Hsp' Ht). lia.
    - cbn [fst snd] in *. pose proof (split_head_lt _ _ _ Hsp Ht). lia. }
  unfold try_except.
  destruct (os.makedirs_rec fuel _ ok w) as [[e'|[]] w1] eqn:Hrec.
  - apply IH in Hrec; [|done].
    destruct (bool_decide (e' = FileExistsError)); unfold ret.
    + destruct (bool_decide (_ = ".")); [by intros [=]|apply mkdir_or_exists_error].
    + by intros [= <- _].
  - destruct (bool_decide (_ = ".")); [by intros [=]|apply mkdir_or_exists_error].
Qed.

Lemma makedirs_total name ok w :
  (os.makedirs name ok w).1 ≠ inl RecursionError.
Proof.
  unfold os.makedirs.
  destruct (os.makedirs_rec _ name ok w) as [[e|] w'] eqn:H; [|done].
  cbn. intros [= ->]. eapply makedirs_rec_fuel; [|done..]. lia.
Qed.

End makedirs_fuel.


(* ===================================================================== *)
(** * os.makedirs below an existing directory *)
(* ===================================================================== *)

(** The path [foldl posixpath.join base cs] names the entry reached from
    the folder [base] through the names [cs]. *)

Section below_strings.
Import posixpath.

Lemma prefix_snoc_inv (k cs : list string) c :
  k `prefix_of` cs ++ [c] → k `prefix_of` cs ∨ k = cs ++ [c].
Proof.
  intros [t Ht]. destruct (decide (t = [])) as [->|Hne].
  - right. by rewrite app_nil_r in Ht.
  - left. destruct (exists_last Hne) as (t' & x & ->).
    rewrite app_assoc in Ht. apply app_inj_tail in Ht as [-> _].
    by exists t'.
Qed.

Lemma rstrip_app_sep a :
  a ≠ "" → endswith_sep a = false → rstrip_sep (a +:+ "/") = a.
Proof.
  induction a as [|c r IH]; [done|]. intros _.
  rewrite app_cons. cbn [endswith_sep rstrip_sep]. destruct r as [|c' r'].
  - intros ->. by rewrite app_nil_l.
  - intros Hr. by rewrite IH.
Qed.

Lemma cut_last_app_sep a : cut_last_sep (a +:+ "/") = (a +:+ "/", "").
Proof.
  rewrite <-(app_empty_r (a +:+ "/")) at 1.
  apply cut_last_app_no_sep; [done|]. by rewrite endswith_app_sep.
Qed.

Lemma split_app_sep a :
  a ≠ "" → endswith_sep a = false → split (a +:+ "/") = (a, "").
Proof.
  intros Ha He. unfold split. rewrite cut_last_app_sep, rstrip_app_sep by done.
  by destruct a.
Qed.

Lemma split_join a c :
  a ≠ "" → plain c →
  ∃ hd, split (join a c) = (hd, c) ∧ (endswith_sep a = false → hd = a).
Proof.
  intros Ha (Hn & Hne & _).
  rewrite join_relative by auto using no_sep_startswith.
  unfold split. destruct (endswith_sep a) eqn:He.
  - rewrite cut_last_app_no_sep by done. eexists. split; [done|done].
  - assert (a +:+ String "/" c = (a +:+ "/") +:+ c) as ->.
    { clear. induction a; [done|]. rewrite !app_cons. by f_equal. }
    rewrite cut_last_app_no_sep by (done || by rewrite endswith_app_sep).
    rewrite rstrip_app_sep by done. exists a. by destruct a.
Qed.

Lemma strip_trailing_empty cs : strip_trailing (cs ++ [""]) = strip_trailing cs.
Proof.
  induction cs as [|x cs IH]; [done|]. cbn [strip_trailing app]. by rewrite IH.
Qed.

Lemma components_trailing_sep p : components (p +:+ "/") = components p ++ [""].
Proof. by rewrite components_app_sep. Qed.

Lemma below_not_empty base cs :
  base ≠ "" → Forall plain cs → foldl join base cs ≠ "".
Proof.
  intros Hb. induction cs as [|c cs IH] using rev_ind; [by intros _|].
  intros [Hcs [Hc _]%Forall_cons]%Forall_app.
  rewrite foldl_app. cbn [foldl]. apply join_not_empty; [by apply IH|apply Hc].
Qed.

End below_strings.

Section below_resolution.
Import posixpath fs.
Implicit Types (w : world) (B k q : list string) (cs : list string).

(** A trailing separator changes neither where a new entry is created
    nor whether the path names a directory. *)
Lemma resolve_new_trailing_sep w p :
  p ≠ "" → resolve_new w (p +:+ "/") = resolve_new w p.
Proof.
  intros Hp. unfold resolve_new, start.
  rewrite startswith_app, components_trailing_sep, strip_trailing_empty by done.
  rewrite bool_decide_eq_false_2 by (by apply app_not_empty).
  by rewrite bool_decide_eq_false_2.
Qed.

Lemma isdir_trailing_sep w p : p ≠ "" → isdir w (p +:+ "/") = isdir w p.
Proof.
  intros Hp. unfold isdir, stat, resolve, start.
  rewrite startswith_app, components_trailing_sep, walk_app by done.
  rewrite bool_decide_eq_false_2 by (by apply app_not_empty).
  rewrite bool_decide_eq_false_2 by done.
  destruct (walk _ _ (components p)) as [|q]; [done|]. cbn [walk].
  destruct (tree w !! q) as [[|]|] eqn:Hq; [done| |done].
  rewrite bool_decide_eq_true_2 by auto. by rewrite Hq.
Qed.

Lemma mkdir_or_exists_trailing_sep w p ok :
  p ≠ "" → os.mkdir_or_exists (p +:+ "/") ok w = os.mkdir_or_exists p ok w.
Proof.
  intros Hp. unfold os.mkdir_or_exists, try_except, os.mkdir.
  rewrite resolve_new_trailing_sep by done.
  destruct (match resolve_new w p with inl _ => _ | inr _ => _ end)
    as [[e|[]] w1]; [|done].
  destruct (os.is_OSError e); [|done]. cbv beta.
  by rewrite isdir_trailing_sep.
Qed.

(** Where a path below [base] resolves, and what that takes. *)
Lemma resolve_below_inv w base B cs q :
  stat w base = inr (B, Dir) → Forall plain cs →
  resolve w (foldl join base cs) = inr q →
  q = B ++ cs ∧ ∀ k, k `prefix_of` cs → k ≠ cs → tree w !! (B ++ k) = Some Dir.
Proof.
  intros Hb. revert q.
  induction cs as [|c cs IH] using rev_ind; intros q Hall.
  - cbn [foldl]. rewrite (stat_resolve _ _ _ _ Hb). intros [= <-].
    rewrite app_nil_r. split; [done|]. intros k Hk%prefix_nil_inv. done.
  - apply Forall_app in Hall as [Hcs [Hc _]%Forall_cons].
    rewrite foldl_app. cbn [foldl].
    intros (r & Hr & ->)%resolve_join;
      [|apply below_not_empty; [by eapply stat_not_empty|done]|done].
    destruct (IH _ Hcs (stat_resolve _ _ _ _ Hr)) as [-> Hpre].
    split; [by rewrite app_assoc|].
    intros k [Hk| ->]%prefix_snoc_inv Hne; [|done].
    destruct (decide (k = cs)) as [->|]; [|by apply Hpre].
    by eapply stat_lookup.
Qed.

Lemma stat_below w base B cs :
  stat w base = inr (B, Dir) → Forall plain cs →
  (∀ k, k `prefix_of` cs → tree w !! (B ++ k) = Some Dir) →
  stat w (foldl join base cs) = inr (B ++ cs, Dir).
Proof.
  intros Hb.
  induction cs as [|c cs IH] using rev_ind; intros Hall Hpre.
  - cbn [foldl]. by rewrite app_nil_r.
  - apply Forall_app in Hall as [Hcs [Hc _]%Forall_cons].
    rewrite foldl_app. cbn [foldl].
    rewrite (stat_join_lookup _ _ _ (B ++ cs)); [|apply IH; [done|]|done].
    + rewrite <-app_assoc, Hpre; done.
    + intros k Hk. apply Hpre. by apply prefix_app_r.
Qed.

(** The last step of [os.makedirs]: in an existing directory the entry
    is created, or found to be a directory already. *)
Lemma mkdir_or_exists_leaf w a r c :
  stat w a = inr (r, Dir) → plain c →
  (∀ d, tree w !! (r ++ [c]) ≠ Some (File d)) →
  os.mkdir_or_exists (join a c) true w =
    (inr (), set_tree w (<[r ++ [c] := Dir]> (tree w))).
Proof.
  intros Ha Hc Hfree.
  assert (a ≠ "") as Hne by (by eapply stat_not_empty).
  unfold os.mkdir_or_exists, try_except, os.mkdir, os.fail.
  rewrite resolve_new_join, (stat_join _ _ _ _ Ha Hc) by done.
  destruct (tree w !! (r ++ [c])) as [[d|]|] eqn:Hl.
  - by destruct (Hfree d).
  - cbn [os.is_OSError negb orb]. unfold isdir.
    rewrite (stat_join_lookup _ _ _ _ Ha Hc), Hl. cbn [negb].
    by rewrite insert_id, set_tree_id.
  - done.
Qed.

End below_resolution.

Section makedirs_below.
Import posixpath fs.
Implicit Types (w : world) (B k q : list string) (cs : list string).

Lemma makedirs_rec_below base B : ∀ cs w fuel,
  stat w base = inr (B, Dir) → Forall plain cs →
  (∀ k d, k `prefix_of` cs → tree w !! (B ++ k) ≠ Some (File d)) →
  String.length (foldl join base cs) < fuel →
  ∃ w1, os.makedirs_rec fuel (foldl join base cs) true w = (inr (), w1) ∧
    (∀ k, k `prefix_of` cs → tree w1 !! (B ++ k) = Some Dir) ∧
    only_changes w w1 (on_the_way B cs).
Proof.
  intros cs w fuel Hb. revert fuel.
  induction cs as [|c cs IH] using rev_ind; intros fuel Hall Hfree Hlen.
  { cbn [foldl] in *. destruct fuel as [|fuel]; [lia|]. exists w.
    split; [apply makedirs_rec_existing, isdir_true; eauto|].
    split; [|apply only_changes_refl].
    intros k ->%prefix_nil_inv. rewrite app_nil_r. by eapply stat_lookup. }
  apply Forall_app in Hall as [Hcs [Hc _]%Forall_cons].
  rewrite foldl_app in *. cbn [foldl] in *.
  set (head := foldl join base cs) in *.
  assert (head ≠ "") as Hhead.
  { apply below_not_empty; [by eapply stat_not_empty|done]. }
  assert (∀ k d, k `prefix_of` cs → tree w !! (B ++ k) ≠ Some (File d)) as Hfree'.
  { intros k d Hk. apply Hfree. by apply prefix_app_r. }
  destruct fuel as [|fuel]; [lia|].
  destruct (split_join head c Hhead Hc) as (hd & Hsp & Hhd).
  pose proof (split_head_lt _ _ _ Hsp (proj1 (proj2 Hc))) as Hshort.
  (* the last step, in any world where the head is a directory *)
  assert (∀ w1, stat w1 head = inr (B ++ cs, Dir) →
            (∀ k, k `prefix_of` cs → tree w1 !! (B ++ k) = Some Dir) →
            only_changes w w1 (on_the_way B cs) →
            ∃ w2, os.mkdir_or_exists (join head c) true w1 = (inr (), w2) ∧
              (∀ k, k `prefix_of` cs ++ [c] → tree w2 !! (B ++ k) = Some Dir) ∧
              only_changes w w2 (on_the_way B (cs ++ [c]))) as Hleaf.
  { intros w1 Hs1 Hd1 Hch.
    assert (tree w1 !! ((B ++ cs) ++ [c]) = tree w !! ((B ++ cs) ++ [c])) as Hsame.
    { destruct (decide (tree w1 !! ((B ++ cs) ++ [c]) = tree w !! ((B ++ cs) ++ [c])))
        as [|Hne]; [done|].
      destruct (Hch _ Hne) as (k & Hk & Heq).
      rewrite <-app_assoc in Heq. apply app_inv_head in Heq. subst k.
      by apply prefix_snoc_not in Hk. }
    eexists. split; [apply mkdir_or_exists_leaf; [done..|]|split].
    - intros d. rewrite Hsame, <-app_assoc. by apply Hfree.
    - intros k [Hk| ->]%prefix_snoc_inv; cbn.
      + rewrite lookup_insert_ne; [by apply Hd1|].
        rewrite <-app_assoc. intros Heq%app_inv_head. subst k.
        by apply prefix_snoc_not in Hk.
      + by rewrite app_assoc, lookup_insert_eq.
    - intros q. cbn. destruct (decide (q = (B ++ cs) ++ [c])) as [->|Hq].
      + intros _. exists (cs ++ [c]). by rewrite app_assoc.
      + rewrite lookup_insert_ne by done. intros (k & Hk & ->)%Hch.
        exists k. split; [by apply prefix_app_r|done]. }
  rewrite makedirs_rec_unfold. cbv zeta. rewrite Hsp. cbn [fst snd].
  rewrite (bool_decide_eq_false_2 (c = "")) by apply Hc. cbn [fst snd].
  destruct (isdir w head) eqn:Hdir.
  - (* the head is a directory already *)
    apply isdir_true in Hdir as [q Hs].
    destruct (resolve_below_inv _ _ _ _ _ Hb Hcs (stat_resolve _ _ _ _ Hs))
      as [-> Hpre].
    assert (∀ k, k `prefix_of` cs → tree w !! (B ++ k) = Some Dir) as Hd.
    { intros k Hk. destruct (decide (k = cs)) as [->|]; [|by apply Hpre].
      by eapply stat_lookup. }
    assert (bool_decide (hd ≠ "") && bool_decide (c ≠ "") && negb (exists_ w hd)
            = false) as ->.
    { destruct (decide (hd = "")) as [->|Hne]; [done|].
      destruct (split_head_dir w _ _ _ ((B ++ cs) ++ [c]) Hsp Hne
                  (proj1 (proj2 Hc))) as [r Hr].
      { by apply stat_join. }
      unfold exists_. rewrite Hr. by rewrite andb_false_r. }
    apply Hleaf; [done|done|apply only_changes_refl].
  - (* the head is missing: it is created first *)
    destruct cs as [|c0 cs0 _] using rev_ind.
    { exfalso. cbn in Hdir. unfold isdir in Hdir. by rewrite Hb in Hdir. }
    assert (endswith_sep head = false) as Hend.
    { unfold head. rewrite foldl_app. cbn [foldl].
      apply Forall_app in Hcs as [Hcs0 Hc0]. apply Forall_cons in Hc0 as [Hc0 _].
      apply endswith_join; [|done].
      apply below_not_empty; [by eapply stat_not_empty|done]. }
    rewrite (Hhd Hend) in *.
    assert (exists_ w head = false) as Hex.
    { unfold exists_. destruct (stat w head) as [|[q nd]] eqn:Hs; [done|].
      destruct (resolve_below_inv _ _ _ _ _ Hb Hcs (stat_resolve _ _ _ _ Hs))
        as [-> _].
      apply stat_lookup in Hs as Hl. destruct nd as [d|].
      - by destruct (Hfree' (cs0 ++ [c0]) d).
      - unfold isdir in Hdir. by rewrite Hs in Hdir. }
    rewrite Hex. rewrite !bool_decide_eq_true_2 by (done || apply Hc).
    cbn [negb andb]. unfold try_except.
    destruct (IH fuel Hcs Hfree') as (w1 & Hrec & Hd1 & Hch1); [lia|].
    fold head in Hrec. rewrite Hrec.
    rewrite (bool_decide_eq_false_2 (c = ".")) by apply Hc.
    apply Hleaf; [|done|done].
    apply stat_below; [|done|done].
    eapply stat_dir_mono; [|done].
    eapply grows_le, makedirs_rec_grows. exact Hrec.
Qed.

Lemma makedirs_rec_trailing_sep fuel a c w :
  a ≠ "" → plain c →
  os.makedirs_rec fuel (join a c +:+ "/") true w =
  os.makedirs_rec fuel (join a c) true w.
Proof.
  intros Ha Hc. destruct fuel as [|fuel]; [done|].
  assert (join a c ≠ "") as Hne by (apply join_not_empty; [done|apply Hc]).
  rewrite !makedirs_rec_unfold. cbv zeta.
  rewrite split_app_sep by (done || by apply endswith_join).
  destruct (split_join a c Ha Hc) as (hd & Hsp & _). rewrite Hsp.
  cbn [fst snd]. rewrite (bool_decide_eq_true_2 ("" = "")) by done.
  rewrite (bool_decide_eq_false_2 (c = "")) by apply Hc.
  rewrite Hsp. cbn [fst snd].
  destruct (_ && _ && _); [|by apply mkdir_or_exists_trailing_sep].
  destruct (try_except _ _ _ w) as [[e|[]] w1]; [done|].
  destruct (bool_decide (c = ".")); [done|].
  by apply mkdir_or_exists_trailing_sep.
Qed.

(** [os.makedirs] succeeds on every destination that lies below an
    existing directory through names none of which is taken by a regular
    file: it returns normally, every directory on the way exists
    afterwards, and nothing else has changed. *)
Lemma makedirs_creates w base B cs dst :
  stat w base = inr (B, Dir) → Forall plain cs →
  dst = foldl join base cs ∨ dst = foldl join base cs +:+ "/" →
  (∀ k d, k `prefix_of` cs → tree w !! (B ++ k) ≠ Some (File d)) →
  ∃ w1, os.makedirs dst true w = (inr (), w1) ∧
    grows w w1 ∧
    (∀ k, k `prefix_of` cs → tree w1 !! (B ++ k) = Some Dir) ∧
    only_changes w w1 (on_the_way B cs) ∧
    isdir w1 dst = true.
Proof.
  intros Hb Hcs Hdst Hfree.
  assert (foldl join base cs ≠ "") as Hne.
  { apply below_not_empty; [by eapply stat_not_empty|done]. }
  assert (∃ w1, os.makedirs dst true w = (inr (), w1) ∧
            (∀ k, k `prefix_of` cs → tree w1 !! (B ++ k) = Some Dir) ∧
            only_changes w w1 (on_the_way B cs)) as (w1 & Hmk & Hd & Hch).
  { unfold os.makedirs. destruct Hdst as [-> | ->].
    - apply makedirs_rec_below; [done..|lia].
    - destruct cs as [|c cs _] using rev_ind.
      + cbn [foldl] in *. exists w.
        split; [|split; [|apply only_changes_refl]].
        * apply makedirs_rec_existing. rewrite isdir_trailing_sep by done.
          apply isdir_true. eauto.
        * intros k ->%prefix_nil_inv. rewrite app_nil_r. by eapply stat_lookup.
      + destruct (makedirs_rec_below base B (cs ++ [c]) w
                    (S (String.length (foldl join base (cs ++ [c]) +:+ "/"))))
          as (w1 & Hrec & Hrest); [done..|rewrite length_app; cbn; lia|].
        exists w1. split; [|done]. rewrite <-Hrec.
        apply Forall_app in Hcs as [Hcs0 [Hc _]%Forall_cons].
        rewrite foldl_app. cbn [foldl]. apply makedirs_rec_trailing_sep; [|done].
        apply below_not_empty; [by eapply stat_not_empty|done]. }
  pose proof (makedirs_grows _ _ _ _ _ Hmk) as Hg.
  exists w1. repeat split; try done; try apply Hg.
  assert (isdir w1 (foldl join base cs) = true) as Hd1.
  { apply isdir_true. eexists. apply stat_below; [|done|done].
    eapply stat_dir_mono; [|done]. by apply grows_le. }
  destruct Hdst as [-> | ->]; [done|]. by rewrite isdir_trailing_sep.
Qed.

End makedirs_below.


(* ===================================================================== *)
(** * Moving a path onto itself *)
(* ===================================================================== *)

Section same_path.
Import posixpath fs.
Implicit Types (w : world) (p q : list string).

(** A path that ends in an empty, dot or dot-dot component names a
    directory. *)
Lemma walk_last_not_name t p cs c q :
  walk t p (cs ++ [c]) = inr q → c = "" ∨ c = "." ∨ c = ".." →
  t !! q = Some Dir.
Proof.
  rewrite walk_app. destruct (walk t p cs) as [|r]; [done|].
  cbn [walk]. destruct (t !! r) as [[|]|] eqn:Hr; try done.
  case_bool_decide as H1.
  { intros [= <-]. done. }
  case_bool_decide as H2.
  { destruct (t !! removelast r) as [[|]|] eqn:Hr'; try done. by intros [= <-]. }
  intros _ [-> | [-> | ->]]; [destruct H1; auto..|done].
Qed.

Lemma stat_file_final w a sp d :
  stat w a = inr (sp, File d) → final_is_name a = true.
Proof.
  intros (Ha & Hw & Hl)%stat_inv. unfold final_is_name.
  destruct (components a) as [|c0 cs0] eqn:Hc using rev_ind.
  { by apply components_nonempty in Hc. }
  clear IHcs0.
  destruct (decide (c0 = "" ∨ c0 = "." ∨ c0 = "..")) as [Hbad|Hgood].
  { pose proof (walk_last_not_name _ _ _ _ _ Hw Hbad). congruence. }
  rewrite strip_trailing_snoc by (intros ->; apply Hgood; auto).
  rewrite last_snoc. apply bool_decide_eq_true_2.
  repeat split; intros ->; apply Hgood; auto.
Qed.

Lemma rename_same_state a w : (os.rename a a w).2 = w.
Proof.
  unfold os.rename, os.fail.
  destruct (stat w a) as [|[sp nd]] eqn:Hs; [done|].
  rewrite (resolve_new_of_resolve _ _ _ (stat_resolve _ _ _ _ Hs)).
  destruct (negb _); [done|]. by rewrite bool_decide_eq_true_2.
Qed.

Lemma rename_same_file a w :
  isfile w a = true → os.rename a a w = (inr (), w).
Proof.
  unfold isfile. destruct (stat w a) as [|[sp [d|]]] eqn:Hs; try done. intros _.
  unfold os.rename. rewrite Hs.
  rewrite (resolve_new_of_resolve _ _ _ (stat_resolve _ _ _ _ Hs)).
  rewrite (stat_file_final _ _ _ _ Hs). cbn [andb negb].
  by rewrite bool_decide_eq_true_2.
Qed.

Lemma samefile_refl w a : exists_ w a = true → shutil._samefile w a a = true.
Proof.
  unfold exists_, shutil._samefile, samefile.
  destruct (stat w a) as [|[cp nd]]; [done|]. intros _.
  by apply bool_decide_eq_true_2.
Qed.

Lemma copy2_same_fails a w : ∃ e, shutil.copy2 a a w = (inl e, w).
Proof.
  unfold shutil.copy2, shutil.copyfile.
  destruct (isdir w a) eqn:Hd.
  - apply isdir_true in Hd as [cp Hs].
    destruct (shutil._samefile _ _ _); [by eexists|].
    unfold bind, os.read_file. rewrite Hs. by eexists.
  - destruct (exists_ w a) eqn:Hex.
    + rewrite samefile_refl by done. by eexists.
    + apply exists_false_stat in Hex as [e He].
      rewrite (samefile_missing _ _ _ _ He).
      unfold bind, os.read_file. rewrite He. by eexists.
Qed.

(** Moving a path onto itself changes nothing. *)
Lemma move_same_state a w : (shutil.move a a w).2 = w.
Proof.
  unfold shutil.move. destruct (isdir w a) eqn:Hd.
  - rewrite samefile_refl by by apply isdir_exists.
    unfold bind. pose proof (rename_same_state a w) as Hr.
    by destruct (os.rename a a w) as [[|] ?].
  - unfold shutil.move_to, bind, try_except.
    pose proof (rename_same_state a w) as Hr.
    destruct (os.rename a a w) as [[e|] w1]; cbn in Hr; subst w1; [|done].
    destruct (os.is_OSError e); [|done]. rewrite Hd.
    destruct (copy2_same_fails a w) as [e' ->]. done.
Qed.

Lemma move_same_file a w :
  isfile w a = true → shutil.move a a w = (inr (Some a), w).
Proof.
  intros Hf. unfold shutil.move.
  assert (isdir w a = false) as ->.
  { unfold isfile in Hf. unfold isdir. by destruct (stat w a) as [|[? [|]]]. }
  unfold shutil.move_to, bind, try_except. by rewrite rename_same_file.
Qed.

Lemma join_absolute_entry a e : startswith_sep e = true → join a e = e.
Proof. intros H. unfold join. by rewrite H. Qed.

End same_path.


(* ===================================================================== *)
(** * A missing destination folder; the frame of a run *)
(* ===================================================================== *)

Section missing_destination.
Import posixpath fs.
Implicit Types (w : world) (p q : list string).






End missing_destination.

Section frame.
Import posixpath fs.
Implicit Types (w : world) (p q : list string).

Lemma move_files_nondir_same_dirs src dst : ∀ names w r w',
  (∀ n, n ∈ names → isdir w (join src n) = false) →
  move_files names src dst w = (r, w') → same_dirs w w'.
Proof.
  induction names as [|n names IH]; intros w r w' Hnd.
  { intros [= <- <-]. apply same_dirs_refl. }
  rewrite move_files_cons.
  destruct (shutil.move _ _ w) as [[e|?] w1] eqn:Hm;
    apply move_nondir_spec in Hm as [Hsd _]; try (apply Hnd; by left).
  - by intros [= <- <-].
  - intros Hrest. eapply same_dirs_trans; [done|].
    eapply IH; [|done]. intros m Hm.
    rewrite (isdir_same_dirs _ _ _ Hsd). apply Hnd. by right.
Qed.

Lemma stat_dir_inj w a r r' :
  stat w a = inr (r, Dir) → stat w a = inr (r', Dir) → r = r'.
Proof. congruence. Qed.

Lemma move_plain_changes w src dst S D n r w' :
  stat w src = inr (S, Dir) → stat w dst = inr (D, Dir) → plain n →
  isdir w (join src n) = false →
  shutil.move (join src n) (join dst n) w = (r, w') →
  same_dirs w w' ∧
  only_changes w w' (λ q,
    q = S ++ [n] ∨ q = D ++ [n] ∨
    (q = D ++ [n; n] ∧ tree w !! (D ++ [n]) = Some Dir)).
Proof.
  intros Hsrc Hdst Hn Hnd [Hsd Hch]%move_nondir_spec; [|done].
  split; [done|]. eapply only_changes_weaken; [|done]. cbn.
  pose proof (stat_not_empty _ _ _ Hsrc) as Hsne.
  pose proof (stat_not_empty _ _ _ Hdst) as Hdne.
  intros q [Hq|[[_ Hq]|[Hd Hq]]].
  - left. apply resolve_join in Hq as (r' & Hr' & ->); [|done..]. congruence.
  - right; left. rewrite resolve_new_join in Hq by done.
    apply resolve_join in Hq as (r' & Hr' & ->); [|done..]. congruence.
  - right; right. rewrite basename_join in Hq by done.
    assert (join dst n ≠ "") as Hjne by (apply join_not_empty; [done|apply Hn]).
    rewrite resolve_new_join in Hq by done.
    apply resolve_join in Hq as (r' & Hr' & ->); [|done..].
    pose proof (stat_resolve _ _ _ _ Hr') as Hres.
    apply resolve_join in Hres as (r2 & Hr2 & ->); [|done..].
    assert (r2 = D) as -> by congruence.
    split; [by rewrite <-app_assoc|]. by eapply stat_lookup.
Qed.

Lemma move_files_plain_changes src dst S D : ∀ names w r w',
  stat w src = inr (S, Dir) → stat w dst = inr (D, Dir) →
  Forall plain names →
  (∀ n, n ∈ names → isdir w (join src n) = false) →
  move_files names src dst w = (r, w') →
  same_dirs w w' ∧
  only_changes w w' (λ q, ∃ n, n ∈ names ∧
    (q = S ++ [n] ∨ q = D ++ [n] ∨
     (q = D ++ [n; n] ∧ tree w !! (D ++ [n]) = Some Dir))).
Proof.
  induction names as [|n names IH]; intros w r w' Hsrc Hdst Hpl Hnd.
  { intros [= <- <-]. split; [apply same_dirs_refl|apply only_changes_refl]. }
  apply Forall_cons in Hpl as [Hn Hpl].
  rewrite move_files_cons.
  destruct (shutil.move _ _ w) as [[e|?] w1] eqn:Hm;
    apply (move_plain_changes _ _ _ S D) in Hm as [Hsd Hch];
    try done; try (apply Hnd; by left).
  - intros [= <- <-]. split; [done|].
    eapply only_changes_weaken; [|done]. cbn. intros q Hq. exists n.
    split; [by left|done].
  - intros Hrest. apply IH in Hrest as [Hsd' Hch']; try done.
    + split; [by eapply same_dirs_trans|].
      apply (only_changes_trans _ w1).
      * eapply only_changes_weaken; [|done]. cbn. intros q Hq. exists n.
        split; [by left|done].
      * eapply only_changes_weaken; [|done]. cbn.
        intros q (m & Hm & Hq). exists m. split; [by right|].
        destruct Hq as [?|[?|[? Hd]]]; auto. right; right. split; [done|].
        by apply Hsd.
    + eapply stat_dir_mono; [apply same_dirs_le|]; done.
    + eapply stat_dir_mono; [apply same_dirs_le|]; done.
    + intros m Hm. rewrite (isdir_same_dirs _ _ _ Hsd). apply Hnd. by right.
Qed.

End frame.

Section conversions.
Import posixpath fs.
Implicit Types (w : world) (p q : list string).



Lemma exists_join_lookup w a n r :
  stat w a = inr (r, Dir) → plain n →
  exists_ w (join a n) = bool_decide (is_Some (tree w !! (r ++ [n]))).
Proof.
  intros Hs Hn. unfold exists_. rewrite (stat_join_lookup _ _ _ _ Hs Hn).
  destruct (tree w !! (r ++ [n])) as [nd|] eqn:E.
  - by rewrite bool_decide_eq_true_2.
  - rewrite bool_decide_eq_false_2; [done|]. by intros [? ?].
Qed.

Lemma read_join_lookup w a n r d :
  stat w a = inr (r, Dir) → plain n → tree w !! (r ++ [n]) = Some (File d) →
  os.read_file (join a n) w = (inr d, w).
Proof.
  intros Hs Hn Hl. unfold os.read_file.
  by rewrite (stat_join_lookup _ _ _ _ Hs Hn), Hl.
Qed.

End conversions.


(* ===================================================================== *)
(** * Runs seen through the paths of the script *)
(* ===================================================================== *)

Section runs.
Import posixpath fs.
Implicit Types (w : world) (p q : list string).



Lemma traced_app l1 l2 src dst s :
  move_files_traced (l1 ++ l2) src dst s =
  match move_files_traced l1 src dst s with
  | (inr _, s1) => move_files_traced l2 src dst s1
  | (inl e, s1) => (inl e, s1)
  end.
Proof.
  revert s. induction l1 as [|n l1 IH]; intros [w log]; [done|].
  cbn [app]. rewrite !traced_cons.
  destruct (shutil.move _ _ w) as [[e|?] w1]; [done|]. apply IH.
Qed.

Lemma traced_ok l src dst w w1 log :
  move_files l src dst w = (inr (), w1) →
  move_files_traced l src dst (w, log) =
    (inr (), (w1, log ++ (call_of src dst <$> l))).
Proof.
  intros Hrun. destruct (traced_run l src dst w log) as (k & _ & -> & _ & Hk).
  rewrite Hrun in Hk |- *. cbn [fst snd]. rewrite Hk by done.
  by rewrite firstn_all.
Qed.

Lemma missing_source_not_found w src dst :
  isdir w dst = false → stat w src = inl ENOENT →
  missing_source_error w src dst = FileNotFoundError.
Proof. intros Hd Hs. unfold missing_source_error. by rewrite Hd, Hs. Qed.

Lemma listdir_state a w r w' : os.listdir a w = (r, w') → w' = w.
Proof.
  unfold os.listdir, os.fail.
  destruct (stat w a) as [|[? [|]]]; by intros [= <- <-].
Qed.

End runs.


(* ===================================================================== *)
(** * The claims *)
(* ===================================================================== *)

Section claims.
Import posixpath fs.
Implicit Types (w : world) (p q : list string).


(** C2 (as amended).  When the entries before position k have been moved
    and the name at position k does not exist at its source path, the
    call for it raises and the exception leaves [move_files]: the log
    ends with that call, the world is the one the earlier moves left.
    The exception is the error of looking the source path up (so
    [FileNotFoundError] when no such entry exists), unless the
    destination path is a directory that already holds an entry of that
    name, where it is shutil's destination-exists error. *)
Theorem move_files_stops_at_missing w w1 src dst l1 n l2 :
  move_files l1 src dst w = (inr (), w1) →
  exists_ w1 (join src n) = false →
  move_files_traced (l1 ++ n :: l2) src dst (w, []) =
    (inl (missing_source_error w1 (join src n) (join dst n)),
     (w1, call_of src dst <$> (l1 ++ [n]))) ∧
  move_files (l1 ++ n :: l2) src dst w =
    (inl (missing_source_error w1 (join src n) (join dst n)), w1) ∧
  (isdir w1 (join dst n) = false → stat w1 (join src n) = inl ENOENT →
   missing_source_error w1 (join src n) (join dst n) = FileNotFoundError).
Proof.
  intros Hrun Hmiss. split; [|split].
  - rewrite traced_app, (traced_ok _ _ _ _ _ [] Hrun), traced_cons.
    rewrite (move_missing _ _ _ Hmiss). by rewrite fmap_app.
  - rewrite move_files_app, Hrun, move_files_cons.
    by rewrite (move_missing _ _ _ Hmiss).
  - apply missing_source_not_found.
Qed.

(** C3 (as amended).  When the listing succeeds, the script is
    [os.makedirs] followed by the moves, which run in the world it left,
    and nothing is moved when it raises; on an existing directory
    [os.makedirs] with [exist_ok=True] does nothing and does not raise;
    when it returns normally for a destination whose last component is
    not a dot, the destination is a directory before the first move
    and, as long as no listed entry is itself a directory, still one
    after the run, however the run ended.  And it does return normally
    whenever the destination lies below an existing directory through
    plain names none of which is taken by a regular file, with or
    without a trailing separator: the destination and every missing
    parent are directories before the first move, nothing else has
    changed by then, and the destination is still a directory after the
    run, completed or aborted. *)
Theorem destination_created_before_moves enum src dst w :
  (∀ file_list, os.listdir enum w = (inr file_list, w) →
     script enum src dst w =
       match os.makedirs dst true w with
       | (inr _, w1) => move_files file_list src dst w1
       | (inl e, w1) => (inl e, w1)
       end) ∧
  (isdir w dst = true → os.makedirs dst true w = (inr (), w)) ∧
  (∀ file_list w1 r w',
     os.listdir enum w = (inr file_list, w) →
     os.makedirs dst true w = (inr (), w1) →
     last_component dst ≠ "." →
     (∀ n, n ∈ file_list → isdir w1 (join src n) = false) →
     script enum src dst w = (r, w') →
     isdir w1 dst = true ∧
     move_files file_list src dst w1 = (r, w') ∧
     isdir w' dst = true) ∧
  (∀ base B cs file_list,
     os.listdir enum w = (inr file_list, w) →
     stat w base = inr (B, Dir) → Forall plain cs →
     dst = foldl join base cs ∨ dst = foldl join base cs +:+ "/" →
     (∀ k d, k `prefix_of` cs → tree w !! (B ++ k) ≠ Some (File d)) →
     ∃ w1, os.makedirs dst true w = (inr (), w1) ∧
       grows w w1 ∧
       (∀ k, k `prefix_of` cs → tree w1 !! (B ++ k) = Some Dir) ∧
       only_changes w w1 (on_the_way B cs) ∧
       isdir w1 dst = true ∧
       ∀ r w',
         (∀ n, n ∈ file_list → isdir w1 (join src n) = false) →
         script enum src dst w = (r, w') →
         move_files file_list src dst w1 = (r, w') ∧
         isdir w' dst = true).
Proof.
  split; [|split; [|split]].
  - intros file_list Hl. unfold script, bind. by rewrite Hl.
  - apply makedirs_existing.
  - intros file_list w1 r w' Hl Hmk Hlast Hnd. unfold script, bind.
    rewrite Hl, Hmk. intros Hrun.
    pose proof (makedirs_ok_isdir _ _ _ Hlast Hmk) as Hd.
    repeat split; try done.
    rewrite (isdir_same_dirs w1 w'); [done|].
    by eapply move_files_nondir_same_dirs.
  - intros base B cs file_list Hl Hb Hcs Hdst Hfree.
    destruct (makedirs_creates w base B cs dst Hb Hcs Hdst Hfree)
      as (w1 & Hmk & Hg & Hd & Hch & Hdir).
    exists w1. do 5 (split; [done|]).
    intros r w' Hnd. unfold script, bind. rewrite Hl, Hmk. intros Hrun.
    split; [done|].
    rewrite (isdir_same_dirs w1 w'); [done|].
    by eapply move_files_nondir_same_dirs.
Qed.



(** C6.  The calls of [shutil.move] that a run of [move_files] makes are
    the calls for a prefix of the list, one per entry and in the order of
    the list; the prefix is the whole list when the run returns normally,
    and otherwise it ends with the call that raised, made in the world
    the moves of the entries before it left. *)
Theorem moves_follow_list_order file_list src dst w :
  ∃ k, k ≤ length file_list ∧
    move_files_traced file_list src dst (w, []) =
      ((move_files file_list src dst w).1,
       ((move_files file_list src dst w).2,
        call_of src dst <$> take k file_list)) ∧
    (∀ e, (move_files file_list src dst w).1 = inl e →
        ∃ l1 n l2 w1, file_list = l1 ++ n :: l2 ∧ k = S (length l1) ∧
          move_files l1 src dst w = (inr (), w1) ∧
          shutil.move (join src n) (join dst n) w1
            = (inl e, (move_files file_list src dst w).2)) ∧
    ((move_files file_list src dst w).1 = inr () → k = length file_list).
Proof. apply (traced_run file_list src dst w []). Qed.

(** C7 (as amended).  For the empty listing, whenever [os.makedirs] of
    the destination returns normally the script returns normally in the
    world [os.makedirs] left; no call of [shutil.move] is made; that
    world differs from the initial one only by added directories and is
    the initial one when the destination was a directory already; and
    the destination is a directory in it when its last component is not
    a dot.  And [os.makedirs] does return normally whenever the
    destination lies below an existing directory through plain names
    none of which is taken by a regular file, with or without a
    trailing separator: the script then returns normally, the
    destination and every missing parent are directories afterwards,
    and no other entry has changed. *)
Theorem empty_listing_run enum src dst w :
  os.listdir enum w = (inr [], w) →
  (∀ w1, os.makedirs dst true w = (inr (), w1) →
     script enum src dst w = (inr (), w1) ∧
     move_files_traced [] src dst (w1, []) = (inr (), (w1, [])) ∧
     grows w w1 ∧
     (isdir w dst = true → w1 = w) ∧
     (last_component dst ≠ "." → isdir w1 dst = true)) ∧
  (∀ base B cs,
     stat w base = inr (B, Dir) → Forall plain cs →
     dst = foldl join base cs ∨ dst = foldl join base cs +:+ "/" →
     (∀ k d, k `prefix_of` cs → tree w !! (B ++ k) ≠ Some (File d)) →
     ∃ w1, script enum src dst w = (inr (), w1) ∧
       move_files_traced [] src dst (w1, []) = (inr (), (w1, [])) ∧
       grows w w1 ∧
       (∀ k, k `prefix_of` cs → tree w1 !! (B ++ k) = Some Dir) ∧
       only_changes w w1 (on_the_way B cs) ∧
       isdir w1 dst = true ∧
       (isdir w dst = true → w1 = w)).
Proof.
  intros Hl. split.
  - intros w1 Hmk. repeat split.
    + unfold script, bind. by rewrite Hl, Hmk.
    + by eapply makedirs_grows.
    + apply (makedirs_grows _ _ _ _ _ Hmk).
    + intros Hd. rewrite (makedirs_existing _ _ Hd) in Hmk. congruence.
    + intros Hlast. by eapply makedirs_ok_isdir.
  - intros base B cs Hb Hcs Hdst Hfree.
    destruct (makedirs_creates w base B cs dst Hb Hcs Hdst Hfree)
      as (w1 & Hmk & Hg & Hd & Hch & Hdir).
    exists w1. repeat split; try done; try apply Hg.
    + unfold script, bind. by rewrite Hl, Hmk.
    + intros Hex. rewrite (makedirs_existing _ _ Hex) in Hmk. congruence.
Qed.

(** C8 (as amended).  For plain names none of which is a directory in
    the source folder, a run of [move_files] between two existing
    folders, whether it returns or raises, leaves the working directory
    and the set of directories as they were, and changes no entry other
    than, for a listed name n, the entry n of the source folder, the
    entry n of the destination folder and, when that entry is a
    directory, the entry n inside it.  In particular an entry of the
    source folder whose name is not listed is unchanged. *)
Theorem move_files_frame w src dst S D names r w' :
  stat w src = inr (S, Dir) → stat w dst = inr (D, Dir) →
  Forall plain names →
  (∀ n, n ∈ names → isdir w (join src n) = false) →
  move_files names src dst w = (r, w') →
  same_dirs w w' ∧
  (∀ q, tree w' !! q ≠ tree w !! q →
        ∃ n, n ∈ names ∧
          (q = S ++ [n] ∨ q = D ++ [n] ∨
           (q = D ++ [n; n] ∧ tree w !! (D ++ [n]) = Some Dir))) ∧
  (∀ m, m ∉ names → tree w' !! (S ++ [m]) = tree w !! (S ++ [m])).
Proof.
  intros Hsrc Hdst Hpl Hnd Hrun.
  destruct (move_files_plain_changes _ _ S D _ _ _ _ Hsrc Hdst Hpl Hnd Hrun)
    as [Hsd Hch].
  split; [done|]. split; [exact Hch|].
  intros m Hm. destruct (decide (tree w' !! (S ++ [m]) = tree w !! (S ++ [m])))
    as [|Hdiff]; [done|].
  destruct (Hch _ Hdiff) as (n & Hn & [Hq|[Hq|[Hq _]]]).
  - apply snoc_inj_name in Hq as [_ ->]. done.
  - apply snoc_inj_name in Hq as [_ ->]. done.
  - change (D ++ [n; n]) with (D ++ [n] ++ [n]) in Hq.
    rewrite app_assoc in Hq. apply snoc_inj_name in Hq as [_ ->]. done.
Qed.

(** C9.  For an entry that starts with a separator, [os.path.join]
    returns the entry itself for the source path and for the destination
    path; the move of the entry onto itself changes nothing, and it
    returns normally when the entry is a regular file: the entry is not
    rejected and not relocated. *)
Theorem absolute_entry_not_relocated src dst entry w :
  startswith_sep entry = true →
  join src entry = entry ∧ join dst entry = entry ∧
  (shutil.move (join src entry) (join dst entry) w).2 = w ∧
  (move_files [entry] src dst w).2 = w ∧
  (isfile w entry = true → move_files [entry] src dst w = (inr (), w)).
Proof.
  intros Habs. rewrite !(join_absolute_entry _ _ Habs).
  repeat split.
  - apply move_same_state.
  - rewrite move_files_cons, !(join_absolute_entry _ _ Habs).
    pose proof (move_same_state entry w) as H.
    by destruct (shutil.move entry entry w) as [[|] ?].
  - intros Hf. rewrite move_files_cons, !(join_absolute_entry _ _ Habs).
    by rewrite move_same_file.
Qed.


End claims.


(* ===================================================================== *)
(** * The claims on concrete worlds *)
(* ===================================================================== *)

Section examples.
Import posixpath fs.

Ltac by_computation := vm_compute; reflexivity.
Ltac decided := refine (bool_decide_unpack _ _); vm_compute; exact I.
Ltac each_prefix Hk Hl :=
  repeat match type of Hk with
  | ?k `prefix_of` _ :: _ =>
      destruct k; [by vm_compute in Hl|];
      let H := fresh in
      pose proof (prefix_cons_inv_1 _ _ _ _ Hk) as H;
      apply prefix_cons_inv_2 in Hk; subst
  end;
  apply prefix_nil_inv in Hk; subst; by vm_compute in Hl.
Ltac each_listed :=
  let n := fresh "n" in let Hn := fresh "Hn" in
  intros n Hn;
  repeat (apply elem_of_cons in Hn as [->|Hn]; [by_computation|]);
  by apply elem_of_nil in Hn.



(** C2, as stated, fails when the destination path is a directory that
    holds an entry of the same name: the source path does not exist, and
    the exception is not [FileNotFoundError]. *)
Lemma missing_source_destination_exists :
  exists_ occupied_destination (join "/s" "a") = false ∧
  move_files ["a"] "/s" "/d" occupied_destination =
    (inl (ShutilError (DestinationExists "/d/a/a")), occupied_destination).
Proof. split; by_computation. Qed.

(** C2 on [two_files]: [a] is moved, [zz] is missing, [b] is not reached. *)
Lemma move_files_stops_at_missing_witness :
  let w1 := (move_files ["a"] "/s" "/d" two_files).2 in
  move_files_traced ["a"; "zz"; "b"] "/s" "/d" (two_files, []) =
    (inl (missing_source_error w1 (join "/s" "zz") (join "/d" "zz")),
     (w1, call_of "/s" "/d" <$> ["a"; "zz"])) ∧
  move_files ["a"; "zz"; "b"] "/s" "/d" two_files =
    (inl (missing_source_error w1 (join "/s" "zz") (join "/d" "zz")), w1) ∧
  (isdir w1 (join "/d" "zz") = false →
   stat w1 (join "/s" "zz") = inl ENOENT →
   missing_source_error w1 (join "/s" "zz") (join "/d" "zz")
     = FileNotFoundError).
Proof.
  apply (move_files_stops_at_missing two_files _ "/s" "/d" ["a"] "zz" ["b"]).
  - by_computation.
  - by_computation.
Defined.

(** C3, as stated, fails when the enumeration folder cannot be listed:
    the script raises before [os.makedirs] runs and the destination is
    not created. *)
Lemma listing_failure_skips_creation :
  isdir no_destination "/d" = false ∧
  script "/e" "/s" "/d" no_destination = (inl FileNotFoundError, no_destination).
Proof. split; by_computation. Qed.

(** A regular file on the way to the destination makes [os.makedirs]
    raise as well: nothing is created and nothing is moved. *)
Lemma blocked_parent_skips_creation :
  os.listdir "/e" file_at_destination = (inr [], file_at_destination) ∧
  script "/e" "/s" "/d/sub" file_at_destination
    = (inl NotADirectoryError, file_at_destination).
Proof. split; by_computation. Qed.

(** C3 on [listed_folder]: neither [/p] nor [/p/d] exists; the run
    aborts on the missing [zz], and both are directories afterwards. *)
Lemma destination_created_before_moves_witness :
  exists_ listed_folder "/p" = false ∧
  ∃ r w', script "/e" "/s" "/p/d/" listed_folder = (r, w') ∧
          r ≠ inr () ∧
          tree w' !! ["p"] = Some Dir ∧ isdir w' "/p/d/" = true.
Proof.
  split; [by_computation|].
  destruct (destination_created_before_moves "/e" "/s" "/p/d/" listed_folder)
    as (_ & _ & _ & H).
  edestruct (H "/" [] ["p"; "d"]) as (w1 & Hmk & _ & _ & _ & _ & Hrun).
  - by_computation.
  - by_computation.
  - decided.
  - by right.
  - intros k d Hk Hl. each_prefix Hk Hl.
  - assert (w1 = (os.makedirs "/p/d/" true listed_folder).2) as ->
      by (by rewrite Hmk).
    exists (script "/e" "/s" "/p/d/" listed_folder).1,
           (script "/e" "/s" "/p/d/" listed_folder).2.
    split; [apply surjective_pairing|]. split; [by vm_compute|].
    split; [by_computation|].
    refine (proj2 (Hrun _ _ _ (surjective_pairing _))). each_listed.
Defined.





(** C7, as stated, fails when the destination path is a regular file:
    the listing is empty and the script raises [FileExistsError]. *)
Lemma empty_listing_blocked_destination :
  os.listdir "/e" file_at_destination = (inr [], file_at_destination) ∧
  script "/e" "/s" "/d" file_at_destination
    = (inl FileExistsError, file_at_destination).
Proof. split; by_computation. Qed.

(** C7 on [two_files]: [/e] is empty; [/new] and [/new/sub] are
    created and nothing else changes. *)
Lemma empty_listing_run_witness :
  exists_ two_files "/new" = false ∧
  ∃ w1, script "/e" "/s" "/new/sub/" two_files = (inr (), w1) ∧
    move_files_traced [] "/s" "/new/sub/" (w1, []) = (inr (), (w1, [])) ∧
    grows two_files w1 ∧
    (∀ k, k `prefix_of` ["new"; "sub"] → tree w1 !! ([] ++ k) = Some Dir) ∧
    only_changes two_files w1 (on_the_way [] ["new"; "sub"]) ∧
    isdir w1 "/new/sub/" = true ∧
    (isdir two_files "/new/sub/" = true → w1 = two_files).
Proof.
  split; [by_computation|].
  refine (proj2 (empty_listing_run "/e" "/s" "/new/sub/" two_files _)
            "/" [] ["new"; "sub"] _ _ _ _).
  - by_computation.
  - by_computation.
  - decided.
  - by right.
  - intros k d Hk Hl. each_prefix Hk Hl.
Defined.

(** C8, as stated, fails when the destination path of a name is an
    existing directory: the file is created inside that directory, at a
    path that is neither the source path nor the destination path that
    [move_files] computed. *)
Lemma move_into_existing_directory :
  call_of "/s" "/d" "a" = ("/s/a", "/d/a") ∧
  (move_files ["a"] "/s" "/d" directory_in_destination).1 = inr () ∧
  tree directory_in_destination !! ["d"; "a"; "a"] = None ∧
  tree (move_files ["a"] "/s" "/d" directory_in_destination).2
    !! ["d"; "a"; "a"] = Some (File "A").
Proof. repeat split; by_computation. Qed.

(** C8 on [two_files]: moving [a] touches [/s/a] and [/d/a] only. *)
Lemma move_files_frame_witness :
  let w' := (move_files ["a"] "/s" "/d" two_files).2 in
  same_dirs two_files w' ∧
  (∀ q, tree w' !! q ≠ tree two_files !! q →
        ∃ n, n ∈ ["a"] ∧
          (q = ["s"] ++ [n] ∨ q = ["d"] ++ [n] ∨
           (q = ["d"] ++ [n; n] ∧ tree two_files !! (["d"] ++ [n]) = Some Dir))) ∧
  (∀ m, m ∉ ["a"] → tree w' !! (["s"] ++ [m]) = tree two_files !! (["s"] ++ [m])).
Proof.
  apply (move_files_frame two_files "/s" "/d" ["s"] ["d"] ["a"] (inr ())).
  - by_computation.
  - by_computation.
  - decided.
  - each_listed.
  - by_computation.
Defined.

(** C9 on [two_files]: the entry [/s/a] stays where it is. *)
Lemma absolute_entry_not_relocated_witness :
  join "/s" "/s/a" = "/s/a" ∧ join "/d" "/s/a" = "/s/a" ∧
  (shutil.move (join "/s" "/s/a") (join "/d" "/s/a") two_files).2 = two_files ∧
  (move_files ["/s/a"] "/s" "/d" two_files).2 = two_files ∧
  (isfile two_files "/s/a" = true →
   move_files ["/s/a"] "/s" "/d" two_files = (inr (), two_files)).
Proof.
  apply (absolute_entry_not_relocated "/s" "/d" "/s/a" two_files).
  by_computation.
Defined.


(** It also fails for an entry that is a directory: [shutil.move] falls
    back on [copytree], which creates the missing destination folder. *)
Lemma directory_entry_creates_destination :
  exists_ directory_entry "/d" = false ∧
  (move_files ["sub"] "/s" "/d" directory_entry).1 = inr () ∧
  isdir (move_files ["sub"] "/s" "/d" directory_entry).2 "/d" = true ∧
  os.read_file "/d/sub/f" (move_files ["sub"] "/s" "/d" directory_entry).2
    = (inr "F", (move_files ["sub"] "/s" "/d" directory_entry).2).
Proof. repeat split; by_computation. Qed.


End examples.


(* ===================================================================== *)
(** * Listings *)
(* ===================================================================== *)

Section listings.
Import posixpath fs.
Implicit Types (w : world) (p q : list string).

Lemma entry_of_key (k d : list string) (n : string) :
  (k ≠ [] ∧ removelast k = d) ∧ last k = Some n ↔ k = d ++ [n].
Proof.
  split.
  - intros [[Hk <-] Hl]. destruct k as [|x k] using rev_ind; [done|].
    rewrite last_snoc in Hl. injection Hl as ->.
    by rewrite List.removelast_last.
  - intros ->. rewrite List.removelast_last, last_snoc.
    repeat split. by destruct d.
Qed.

Lemma elem_of_children t d n :
  n ∈ children t d ↔ is_Some (t !! (d ++ [n])).
Proof.
  unfold children. rewrite list_elem_of_omap. split.
  - intros (k & Hk & Hf). case_bool_decide as Hc; [|done].
    assert (k = d ++ [n]) as -> by (by apply entry_of_key).
    apply list_elem_of_fmap in Hk as ([k' v] & -> & Hkv).
    apply elem_of_map_to_list in Hkv. cbn. eauto.
  - intros [v Hv]. exists (d ++ [n]). split.
    + apply list_elem_of_fmap. exists (d ++ [n], v). split; [done|].
      by apply elem_of_map_to_list.
    + destruct (proj2 (entry_of_key (d ++ [n]) d n) eq_refl) as [Hc Hl].
      by rewrite bool_decide_eq_true_2.
Qed.



Lemma children_plain w d : wf_names w → Forall plain (children (tree w) d).
Proof.
  intros Hwf. apply Forall_forall. intros n [v Hv]%elem_of_children.
  pose proof (map_Forall_lookup_1 _ _ _ _ Hwf Hv) as Hk. cbn in Hk.
  apply Forall_app in Hk as [_ Hn]. by apply Forall_cons in Hn as [Hn _].
Qed.

Lemma listdir_dir w a r :
  stat w a = inr (r, Dir) → os.listdir a w = (inr (children (tree w) r), w).
Proof. intros Hs. unfold os.listdir. by rewrite Hs. Qed.

End listings.

(* ===================================================================== *)
(** * Further properties of [move_files] and of the entry point *)
(* ===================================================================== *)

Section collisions.
Import posixpath fs.
Implicit Types (w : world) (p q : list string).

Lemma rename_file_ok old new w sp d dp :
  stat w old = inr (sp, File d) → resolve_new w new = inr dp →
  tree w !! dp ≠ Some Dir →
  final_is_name old = true → final_is_name new = true →
  endswith_sep new = false →
  os.rename old new w =
    (inr (), set_tree w (<[dp := File d]> (delete sp (tree w)))).
Proof.
  intros Hs Hrn Hdp Hfs Hfd He. unfold os.rename.
  rewrite Hs, Hrn, Hfs, Hfd, He. cbn [negb andb].
  case_bool_decide as Heq.
  - subst dp. f_equal.
    rewrite insert_delete_eq, insert_id, set_tree_id; [done|].
    by eapply stat_lookup.
  - by destruct (tree w !! dp) as [[|]|].
Qed.

Lemma read_join_inv w a n r d :
  stat w a = inr (r, Dir) → plain n →
  os.read_file (join a n) w = (inr d, w) →
  tree w !! (r ++ [n]) = Some (File d).
Proof.
  intros Hs Hn. unfold os.read_file, os.fail.
  rewrite (stat_join_lookup _ _ _ _ Hs Hn).
  destruct (tree w !! (r ++ [n])) as [[d'|]|]; try done. by intros [= ->].
Qed.

Lemma isdir_join_dir w a n r :
  stat w a = inr (r, Dir) → plain n → isdir w (join a n) = true →
  stat w (join a n) = inr (r ++ [n], Dir).
Proof.
  intros Hs Hn. unfold isdir. rewrite (stat_join_lookup _ _ _ _ Hs Hn).
  by destruct (tree w !! (r ++ [n])) as [[d'|]|].
Qed.

Lemma samefile_distinct w a b ca cb na nb :
  stat w a = inr (ca, na) → stat w b = inr (cb, nb) → ca ≠ cb →
  shutil._samefile w a b = false.
Proof.
  intros Ha Hb Hne. unfold shutil._samefile, samefile. rewrite Ha, Hb.
  by apply bool_decide_eq_false_2.
Qed.

Lemma basename_joined a n : plain n → shutil._basename (join a n) = n.
Proof.
  intros Hn. destruct (decide (a = "")) as [->|Ha]; [|by apply basename_join].
  destruct Hn as (Hs & Hne & _).
  unfold join. rewrite (no_sep_startswith _ Hs). cbn [orb bool_decide].
  rewrite bool_decide_eq_true_2 by done. cbn [orb]. rewrite app_nil_l.
  unfold shutil._basename, basename. by rewrite rstrip_no_sep, cut_last_no_sep.
Qed.

End collisions.

Section extras.
Import posixpath fs.
Implicit Types (w : world) (p q : list string).

(** A batch is the batches of its parts, one after the other: running
    [move_files] on [l1 ++ l2] is running it on [l1] and, if that
    returns normally, on [l2] in the world [l1] left; an exception of
    the first part ends the run. *)
Theorem batch_splits l1 l2 src dst w :
  move_files (l1 ++ l2) src dst w =
  match move_files l1 src dst w with
  | (inr _, w1) => move_files l2 src dst w1
  | (inl e, w1) => (inl e, w1)
  end.
Proof. apply move_files_app. Qed.

(** Whatever exception a call of [shutil.move] raises, [move_files]
    raises it at once: the world is the one that call left, and the
    calls made are those of the entries up to and including the failing
    one, none for a later entry. *)
Theorem move_files_fail_fast l1 n l2 src dst w w1 e w2 :
  move_files l1 src dst w = (inr (), w1) →
  shutil.move (join src n) (join dst n) w1 = (inl e, w2) →
  move_files (l1 ++ n :: l2) src dst w = (inl e, w2) ∧
  move_files_traced (l1 ++ n :: l2) src dst (w, []) =
    (inl e, (w2, call_of src dst <$> (l1 ++ [n]))).
Proof.
  intros Hrun Hmv. split.
  - by rewrite move_files_app, Hrun, move_files_cons, Hmv.
  - rewrite traced_app, (traced_ok _ _ _ _ _ [] Hrun), traced_cons, Hmv.
    by rewrite fmap_app.
Qed.

(** A folder may be given with or without one trailing separator: the
    computed paths, hence the whole run, are the same. *)
Theorem folder_trailing_separator names src dst w :
  src ≠ "" → endswith_sep src = false →
  dst ≠ "" → endswith_sep dst = false →
  (∀ n, join (src +:+ "/") n = join src n) ∧
  (∀ n, join (dst +:+ "/") n = join dst n) ∧
  move_files names (src +:+ "/") (dst +:+ "/") w = move_files names src dst w.
Proof.
  intros Hs Hes Hd Hed.
  assert (∀ a n, a ≠ "" → endswith_sep a = false →
                 join (a +:+ "/") n = join a n) as Hjoin.
  { intros a n Ha He. unfold join. destruct (startswith_sep n); [done|].
    rewrite He, !bool_decide_eq_false_2 by (done || by apply app_not_empty).
    rewrite endswith_app_sep. change (endswith_sep "/") with true.
    cbn [orb]. clear. induction a as [|c r IH]; [done|]. rewrite !app_cons. by f_equal. }
  repeat split; try (intros n; by apply Hjoin).
  revert w. induction names as [|n names IH]; intros w; [done|].
  rewrite !move_files_cons, !Hjoin by done.
  destruct (shutil.move _ _ w) as [[e|?] w1]; [done|]. apply IH.
Qed.

(** With the same folder for source and destination every call moves a
    path onto itself: the run never changes anything, and it returns
    normally when every listed name is a regular file of the folder. *)
Theorem move_files_same_folder names folder w :
  (move_files names folder folder w).2 = w ∧
  ((∀ n, n ∈ names → isfile w (join folder n) = true) →
   move_files names folder folder w = (inr (), w)).
Proof.
  split.
  - induction names as [|n names IH]; [done|]. rewrite move_files_cons.
    pose proof (move_same_state (join folder n) w) as Hm.
    destruct (shutil.move _ _ w) as [[e|?] w1]; cbn in Hm; by subst w1.
  - induction names as [|n names IH]; intros Hf; [done|].
    rewrite move_files_cons, move_same_file by (apply Hf; by left).
    apply IH. intros m Hm. apply Hf. by right.
Qed.


(** When the destination path of a name is an existing directory that
    holds no entry of that name, the file is moved inside that
    directory. *)
Theorem move_files_into_directory w src dst S D n d :
  stat w src = inr (S, Dir) → stat w dst = inr (D, Dir) → plain n →
  os.read_file (join src n) w = (inr d, w) →
  isdir w (join dst n) = true →
  exists_ w (join (join dst n) n) = false →
  ∃ w', move_files [n] src dst w = (inr (), w') ∧
        os.read_file (join (join dst n) n) w' = (inr d, w') ∧
        exists_ w' (join src n) = false ∧
        isdir w' (join dst n) = true.
Proof.
  intros Hsrc Hdst Hn Hd Hdir Hfree.
  pose proof (read_join_inv _ _ _ _ _ Hsrc Hn Hd) as Hl.
  pose proof (isdir_join_dir _ _ _ _ Hdst Hn Hdir) as Hdn.
  pose proof (stat_not_empty _ _ _ Hsrc) as Hsne.
  pose proof (stat_not_empty _ _ _ Hdn) as Hdne.
  assert (stat w (join src n) = inr (S ++ [n], File d)) as Hsn.
  { by rewrite (stat_join_lookup _ _ _ _ Hsrc Hn), Hl. }
  assert (tree w !! (D ++ [n] ++ [n]) = None) as Hnone.
  { rewrite (exists_join_lookup _ _ _ _ Hdn Hn), <-app_assoc in Hfree.
    apply bool_decide_eq_false_1 in Hfree.
    destruct (tree w !! _) eqn:E; [|done]. by destruct Hfree. }
  assert (S ++ [n] ≠ D ++ [n] ++ [n]) as Hdiff.
  { intros H. rewrite H in Hl. congruence. }
  set (w' := set_tree w (<[D ++ [n] ++ [n] := File d]>
                           (delete (S ++ [n]) (tree w)))).
  assert (move_files [n] src dst w = (inr (), w')) as Hrun.
  { rewrite move_files_cons. unfold shutil.move. rewrite Hdir.
    rewrite (samefile_distinct _ _ _ _ _ _ _ Hsn Hdn); cycle 1.
    { intros [? _]%snoc_inj_name. subst.
      apply stat_lookup in Hdn, Hsn. congruence. }
    rewrite basename_joined, Hfree by done.
    unfold shutil.move_to, bind, try_except.
    rewrite (rename_file_ok _ _ _ (S ++ [n]) d (D ++ [n] ++ [n])); try done.
    - rewrite resolve_new_join by done.
      rewrite app_assoc. by apply stat_join.
    - by rewrite Hnone.
    - by apply final_is_name_join.
    - by apply final_is_name_join.
    - by apply endswith_join. }
  assert (same_dirs w w') as Hsd.
  { split; [done|]. intros q. cbn.
    destruct (decide (q = D ++ [n] ++ [n])) as [->|].
    { rewrite lookup_insert_eq, Hnone. done. }
    rewrite lookup_insert_ne by done.
    destruct (decide (q = S ++ [n])) as [->|].
    { rewrite lookup_delete_eq, Hl. done. }
    by rewrite lookup_delete_ne. }
  pose proof (stat_dir_mono _ _ _ _ (same_dirs_le _ _ Hsd) Hsrc) as Hsrc'.
  pose proof (stat_dir_mono _ _ _ _ (same_dirs_le _ _ Hsd) Hdn) as Hdn'.
  exists w'. split; [done|]. repeat split.
  - apply (read_join_lookup _ _ _ _ _ Hdn' Hn). cbn.
    rewrite <-app_assoc. by rewrite lookup_insert_eq.
  - rewrite (exists_join_lookup _ _ _ _ Hsrc' Hn). cbn.
    rewrite lookup_insert_ne, lookup_delete_eq by done.
    apply bool_decide_eq_false_2. by intros [? ?].
  - by rewrite (isdir_same_dirs w w').
Qed.

(** When the destination path of a name is an existing directory that
    already holds an entry of that name, [move_files] raises shutil's
    destination-exists error at that entry and changes nothing, whether
    or not the source exists. *)
Theorem move_files_destination_exists w src dst S D n rest :
  stat w src = inr (S, Dir) → stat w dst = inr (D, Dir) → S ≠ D →
  plain n →
  isdir w (join dst n) = true →
  exists_ w (join (join dst n) n) = true →
  move_files (n :: rest) src dst w =
    (inl (ShutilError (DestinationExists (join (join dst n) n))), w).
Proof.
  intros Hsrc Hdst Hne Hn Hdir Hex.
  pose proof (isdir_join_dir _ _ _ _ Hdst Hn Hdir) as Hdn.
  rewrite move_files_cons. unfold shutil.move. rewrite Hdir.
  assert (shutil._samefile w (join src n) (join dst n) = false) as ->.
  { unfold shutil._samefile, samefile.
    rewrite (stat_join_lookup _ _ _ _ Hsrc Hn), Hdn.
    destruct (tree w !! (S ++ [n])); [|done].
    apply bool_decide_eq_false_2. by intros [? _]%snoc_inj_name. }
  by rewrite basename_joined, Hex.
Qed.

(** A run over entries none of which is a directory never creates,
    removes or renames a directory, wherever its paths point and
    however it ends: the same paths name directories before and after. *)
Theorem move_files_keeps_directories names src dst w r w' :
  (∀ n, n ∈ names → isdir w (join src n) = false) →
  move_files names src dst w = (r, w') →
  same_dirs w w' ∧ ∀ a, isdir w' a = isdir w a.
Proof.
  intros Hnd Hrun.
  pose proof (move_files_nondir_same_dirs _ _ _ _ _ _ Hnd Hrun) as Hsd.
  split; [done|]. intros a. by apply isdir_same_dirs.
Qed.

(** When the enumeration folder cannot be listed the script raises that
    error and the world is untouched; when [os.makedirs] raises the
    script raises that error, no move is attempted, and the world
    differs from the initial one only by added directories. *)
Theorem script_early_failure enum src dst w :
  match os.listdir enum w with
  | (inl e, _) => script enum src dst w = (inl e, w)
  | (inr file_list, _) =>
      ∀ e w1, os.makedirs dst true w = (inl e, w1) →
        script enum src dst w = (inl e, w1) ∧ grows w w1 ∧
        ∀ a d, os.read_file a w = (inr d, w) →
               os.read_file a w1 = (inr d, w1)
  end.
Proof.
  destruct (os.listdir enum w) as [[e|fl] w0] eqn:Hl;
    pose proof (listdir_state _ _ _ _ Hl) as ->.
  - unfold script, bind. by rewrite Hl.
  - intros e w1 Hmk. pose proof (makedirs_grows _ _ _ _ _ Hmk) as Hg.
    split; [|split; [done|]].
    + unfold script, bind. by rewrite Hl, Hmk.
    + intros a d. unfold os.read_file, os.fail.
      destruct (stat w a) as [|[cp [d'|]]] eqn:Hs; try done. intros [= ->].
      assert (stat w1 a = inr (cp, File d)) as ->; [|done].
      apply stat_of_resolve.
      * eapply resolve_mono; [by apply grows_le|]. by eapply stat_resolve.
      * destruct Hg as [_ Hg]. destruct (Hg cp) as [->|[Hnone _]].
        -- by eapply stat_lookup.
        -- apply stat_lookup in Hs. congruence.
Qed.


(** The script moves only what the enumeration folder lists: with plain
    entry names and no listed entry a directory of the source folder, an
    entry of the source folder whose name the enumeration folder does
    not hold is, after the script, as [os.makedirs] left it. *)
Theorem script_moves_only_listed enum src dst w w1 E S D r w' m :
  wf_names w →
  stat w enum = inr (E, Dir) →
  os.makedirs dst true w = (inr (), w1) →
  stat w1 src = inr (S, Dir) → stat w1 dst = inr (D, Dir) →
  (∀ n, is_Some (tree w !! (E ++ [n])) → isdir w1 (join src n) = false) →
  script enum src dst w = (r, w') →
  tree w !! (E ++ [m]) = None →
  tree w' !! (S ++ [m]) = tree w1 !! (S ++ [m]).
Proof.
  intros Hwf Henum Hmk Hsrc Hdst Hnd Hrun Hm.
  unfold script, bind in Hrun. rewrite (listdir_dir _ _ _ Henum), Hmk in Hrun.
  assert (∀ n, n ∈ children (tree w) E → isdir w1 (join src n) = false)
    as Hnd'.
  { intros n Hn. apply Hnd. by apply elem_of_children. }
  destruct (move_files_plain_changes _ _ S D _ _ _ _ Hsrc Hdst
              (children_plain w E Hwf) Hnd' Hrun) as [_ Hch].
  destruct (decide (tree w' !! (S ++ [m]) = tree w1 !! (S ++ [m])))
    as [|Hdiff]; [done|].
  destruct (Hch _ Hdiff) as (n & Hn%elem_of_children & Hq).
  assert (n = m) as ->; [|rewrite Hm in Hn; by destruct Hn].
  destruct Hq as [Hq|[Hq|[Hq _]]].
  - by apply snoc_inj_name in Hq as [_ ->].
  - by apply snoc_inj_name in Hq as [_ ->].
  - change (D ++ [n; n]) with (D ++ [n] ++ [n]) in Hq.
    rewrite app_assoc in Hq. by apply snoc_inj_name in Hq as [_ ->].
Qed.

End extras.


(* ===================================================================== *)
(** * The further properties on concrete worlds *)
(* ===================================================================== *)

Section further_examples.
Import posixpath fs.

Ltac by_computation := vm_compute; reflexivity.
Ltac decided := refine (bool_decide_unpack _ _); vm_compute; exact I.
Ltac each_listed :=
  let n := fresh "n" in let Hn := fresh "Hn" in
  intros n Hn;
  repeat (apply elem_of_cons in Hn as [->|Hn]; [by_computation|]);
  by apply elem_of_nil in Hn.

(** On [two_files]: [a] is moved, the call for the missing [zz] raises
    and [b] is not reached. *)
Lemma move_files_fail_fast_witness :
  let w1 := (move_files ["a"] "/s" "/d" two_files).2 in
  move_files (["a"] ++ "zz" :: ["b"]) "/s" "/d" two_files
    = (inl FileNotFoundError, w1) ∧
  move_files_traced (["a"] ++ "zz" :: ["b"]) "/s" "/d" (two_files, []) =
    (inl FileNotFoundError, (w1, call_of "/s" "/d" <$> (["a"] ++ ["zz"]))).
Proof.
  apply (move_files_fail_fast ["a"] "zz" ["b"] "/s" "/d" two_files
           (move_files ["a"] "/s" "/d" two_files).2).
  - by_computation.
  - by_computation.
Defined.

(** On [two_files]: [/s/] and [/d/] give the run of [/s] and [/d]. *)
Lemma folder_trailing_separator_witness :
  (∀ n, join ("/s" +:+ "/") n = join "/s" n) ∧
  (∀ n, join ("/d" +:+ "/") n = join "/d" n) ∧
  move_files ["a"; "b"] ("/s" +:+ "/") ("/d" +:+ "/") two_files
    = move_files ["a"; "b"] "/s" "/d" two_files.
Proof.
  apply (folder_trailing_separator ["a"; "b"] "/s" "/d" two_files).
  - discriminate.
  - by_computation.
  - discriminate.
  - by_computation.
Defined.


(** On [directory_in_destination]: [/s/a] lands at [/d/a/a]. *)
Lemma move_files_into_directory_witness :
  ∃ w', move_files ["a"] "/s" "/d" directory_in_destination = (inr (), w') ∧
        os.read_file (join (join "/d" "a") "a") w' = (inr "A", w') ∧
        exists_ w' (join "/s" "a") = false ∧
        isdir w' (join "/d" "a") = true.
Proof.
  apply (move_files_into_directory directory_in_destination "/s" "/d"
           ["s"] ["d"] "a" "A").
  - by_computation.
  - by_computation.
  - decided.
  - by_computation.
  - by_computation.
  - by_computation.
Defined.

(** On [occupied_destination]: [/d/a/a] exists and the run raises. *)
Lemma move_files_destination_exists_witness :
  move_files ("a" :: ["b"]) "/s" "/d" occupied_destination =
    (inl (ShutilError (DestinationExists (join (join "/d" "a") "a"))),
     occupied_destination).
Proof.
  apply (move_files_destination_exists occupied_destination "/s" "/d"
           ["s"] ["d"] "a" ["b"]).
  - by_computation.
  - by_computation.
  - discriminate.
  - decided.
  - by_computation.
  - by_computation.
Defined.

(** On [two_files]: moving [a], then failing on [zz], leaves the
    directories as they were. *)
Lemma move_files_keeps_directories_witness :
  let w' := (move_files ["a"; "zz"] "/s" "/d" two_files).2 in
  same_dirs two_files w' ∧ ∀ a, isdir w' a = isdir two_files a.
Proof.
  apply (move_files_keeps_directories ["a"; "zz"] "/s" "/d" two_files
           (move_files ["a"; "zz"] "/s" "/d" two_files).1).
  - each_listed.
  - apply surjective_pairing.
Defined.


(** On [listed_present]: [/e] does not list [c], and [/s/c] stays. *)
Lemma script_moves_only_listed_witness :
  tree (script "/e" "/s" "/d" listed_present).2 !! (["s"] ++ ["c"])
  = tree (os.makedirs "/d" true listed_present).2 !! (["s"] ++ ["c"]).
Proof.
  assert (∀ n, is_Some (tree listed_present !! (["e"] ++ [n])) →
               n ∈ ["b"; "a"]) as Hlisted.
  { intros n Hn%elem_of_children. revert Hn. by vm_compute. }
  apply (script_moves_only_listed "/e" "/s" "/d" listed_present
           (os.makedirs "/d" true listed_present).2 ["e"] ["s"] ["d"]
           (script "/e" "/s" "/d" listed_present).1).
  - decided.
  - by_computation.
  - by_computation.
  - by_computation.
  - by_computation.
  - intros n Hn%Hlisted. revert n Hn. each_listed.
  - apply surjective_pairing.
  - by_computation.
Defined.

End further_examples.
